(** * A shallow embedding of the fredb binding of go-ycsb (db/fredb/db.go)

    The binding stores YCSB records (flat field maps) in an embedded,
    ordered, transactional key-value engine.  The five operations of
    [db.go] (Read, Scan, Update, Insert, Delete) are embedded below, each
    as the closure it hands to the engine's transaction runner.

    The engine (package [fredb]) and the row codec (package [util]) are not
    part of [db.go]: the engine is modelled by a finite map per bucket with
    the transaction, bucket and cursor contract the binding relies on, and
    the codec is any instance of the class [RowCodec].  The longest slice
    the Go runtime allocates is a parameter too, the class [GoRuntime]. *)

From Stdlib Require Import ZArith Lia Ascii String.
From stdpp Require Import base option list gmap strings sorting.

Local Open Scope Z_scope.

(** ** Data *)

(** Go's [[]byte]. *)
Definition bytes : Type := list Byte.byte.

(** Go's [map[string][]byte]: one record's fields. *)
Abbreviation FieldMap := (gmap string bytes).

(** A bucket of the engine: rows by key.  [[]byte(key)] has the bytes of
    the Go string [key], so keys stay strings here. *)
Abbreviation Bucket := (gmap string bytes).

(** The buckets of the engine by name: the committed state of [fredb.DB],
    and also the working state of one transaction. *)
Abbreviation Store := (gmap string (gmap string bytes)).

(** Go's [error] values are carried by their message. *)
Definition error : Type := string.

(** [fmt.Errorf("table not found: %s", table)] *)
Definition TableNotFound (table : string) : error :=
  "table not found: " +:+ table.

(** [fmt.Errorf("key not found: %s.%s", table, key)] *)
Definition KeyNotFound (table key : string) : error :=
  "key not found: " +:+ table +:+ "." +:+ key.

(** A Go call either returns or panics. *)
Inductive outcome (A : Type) : Type :=
  | Returned (a : A)
  | Panicked.
Arguments Returned {A} a.
Arguments Panicked {A}.

(** Go's [(T, error)] result of a call that follows the convention that
    the value is meaningful only when the error is nil. *)
Inductive result (A : Type) : Type :=
  | Ok (a : A)
  | Err (e : error).
Arguments Ok {A} a.
Arguments Err {A} e.

(** ** Key order

    The engine orders keys as byte strings, lexicographically
    ([String.compare] compares character codes). *)

Definition key_le (a b : string) : Prop := String.leb a b = true.
Definition key_lt (a b : string) : Prop := String.ltb a b = true.

#[global] Instance key_le_dec a b : Decision (key_le a b) :=
  decide (String.leb a b = true).

#[global] Instance key_lt_dec a b : Decision (key_lt a b) :=
  decide (String.ltb a b = true).

(** ** Slices *)

(** The Go runtime under the binding.  [max_slice_len] is the largest
    length for which [make([]map[string][]byte, n)] allocates: for a longer
    slice [runtime.makeslice] panics with "len out of range", the size of
    the slice in bytes overflowing or exceeding the runtime's maxAlloc. *)
Class GoRuntime : Type := {
  max_slice_len : Z
}.

(** [make([]map[string][]byte, n)]: panics for a negative length and for a
    length the runtime cannot allocate, and gives [n] nil maps otherwise.
    [None] is the nil map. *)
Definition make_slice `{!GoRuntime} (n : Z) : outcome (list (option FieldMap)) :=
  if (n <? 0) || (max_slice_len <? n)
  then Panicked
  else Returned (replicate (Z.to_nat n) None).

(** [res[i] = m]: panics when the index is out of range. *)
Definition slice_set (res : list (option FieldMap)) (i : Z) (m : FieldMap)
  : outcome (list (option FieldMap)) :=
  if (0 <=? i) && (i <? Z.of_nat (length res))
  then Returned (<[Z.to_nat i := Some m]> res)
  else Panicked.

(** ** The engine's buckets and cursors *)

(** Modelled from the spec: the engine's [tx.Bucket(name)] is not in
    db.go; "GetBucket(name) -> handle | absent (no implicit creation)".
    The handle is the bucket's content, named by the caller again when it
    writes. *)
Definition tx_Bucket (tx : Store) (name : string) : option Bucket :=
  tx !! name.

(** Modelled from the spec: the engine's [bucket.Get(key)] is not in db.go;
    "bucket.Get(key) -> bytes | absent". *)
Definition bucket_Get (bucket : Bucket) (key : string) : option bytes :=
  bucket !! key.

Definition entry_le (x y : string * bytes) : Prop := key_le x.1 y.1.

#[global] Instance entry_le_dec x y : Decision (entry_le x y) :=
  key_le_dec x.1 y.1.

Definition entry_lt (x y : string * bytes) : Prop := key_lt x.1 y.1.

(** Modelled from the spec: the engine's cursor is not in db.go; a cursor
    walks a bucket "ascending key order", "lexicographic over the
    byte-string key".  These are all the entries of a bucket in that
    order. *)
Definition bucket_entries (bucket : Bucket) : list (string * bytes) :=
  merge_sort entry_le (map_to_list bucket).

(** Modelled from the spec: the engine's [cursor.Seek(key)] is not in
    db.go; it puts the cursor on "the first key ≥ start key".  A cursor is
    the list of the entries from its position on: the head is the pair it
    stands on, and the empty list is the nil key past the last entry. *)
Definition cursor_Seek (bucket : Bucket) (seek : string) : list (string * bytes) :=
  filter (λ kv, key_le seek kv.1) (bucket_entries bucket).

(** Modelled from the spec: the engine's [cursor.Next()] is not in db.go;
    it moves to the next entry in ascending key order. *)
Definition cursor_Next (cursor : list (string * bytes)) : list (string * bytes) :=
  tail cursor.

(** ** Transactions *)

(** Modelled from the spec: the engine's [db.View(fn)] is not in db.go;
    "RunReadOnly(fn)" runs [fn] on the committed state and hands back what
    [fn] leaves in the variables it captured, and its error. *)
Definition db_View {A : Type} (s : Store) (fn : Store → A) : A := fn s.

(** Modelled from the spec: the engine's [db.Update(fn)] is not in db.go;
    "RunReadWrite(fn)": "commit the transaction iff fn returns no error;
    roll back (discard all writes) iff fn returns an error, and propagate
    that error unchanged to the caller".  The result is the committed state
    after the call, and the error. *)
Definition db_Update (s : Store) (fn : Store → Store * option error)
  : Store * option error :=
  let '(tx, err) := fn s in
  match err with
  | None => (tx, None)
  | Some e => (s, Some e)
  end.

(** Modelled from the spec: [util.BufPool] is not in db.go; "a buffer is
    obtained immediately before an encode call", and Encode "appends into
    the supplied buffer": the buffer handed out is empty. [bufPool.Put]
    keeps no state of the store and has no counterpart here. *)
Definition bufPool_Get : bytes := [].

(** ** The collaborators of db.go *)

(** The row codec, [db.r.Encode(buf, values)] and [db.r.Decode(row, fields)]
    of [util.RowCodec]: db.go holds it behind the field [r] and never looks
    into a row itself. *)
Class RowCodec : Type := {
  Encode : bytes → FieldMap → result bytes;
  Decode : bytes → list string → result FieldMap
}.

(** The errors the engine may report from its write calls, by the state of
    the transaction and the arguments of the call: [None] is a nil error. *)
Class EngineFaults : Type := {
  create_fault : Store → string → option error;
  put_fault : Store → string → string → bytes → option error;
  delete_fault : Store → string → string → option error
}.

Section Binding.

Context {runtime : GoRuntime} {codec : RowCodec} {engine : EngineFaults}.

(** Modelled from the spec: the engine's [tx.CreateBucketIfNotExists(name)]
    is not in db.go; "GetOrCreateBucket(name) -> handle (write-mode only)".
    The bucket is created empty in the transaction when it is absent. *)
Definition tx_CreateBucketIfNotExists (tx : Store) (name : string)
  : Store * result Bucket :=
  match create_fault tx name with
  | Some e => (tx, Err e)
  | None =>
      match tx !! name with
      | Some bucket => (tx, Ok bucket)
      | None => (<[name := ∅]> tx, Ok ∅)
      end
  end.

(** Modelled from the spec: the engine's [bucket.Put(key, value)] is not in
    db.go; "bucket.Put(key, bytes) -> error".  [bucket] is the handle of
    the bucket [name] of the transaction. *)
Definition bucket_Put (tx : Store) (name : string) (bucket : Bucket)
    (key : string) (value : bytes) : Store * option error :=
  match put_fault tx name key value with
  | Some e => (tx, Some e)
  | None => (<[name := <[key := value]> bucket]> tx, None)
  end.

(** Modelled from the spec: the engine's [bucket.Delete(key)] is not in
    db.go; "bucket.Delete(key) -> error", and "remove the key from the
    table if present; absence of the key is also not an error". *)
Definition bucket_Delete (tx : Store) (name : string) (bucket : Bucket)
    (key : string) : Store * option error :=
  match bucket !! key with
  | None => (tx, None)
  | Some _ =>
      match delete_fault tx name key with
      | Some e => (tx, Some e)
      | None => (<[name := delete key bucket]> tx, None)
      end
  end.

(** ** db.go *)

(** The closure of [Read]: the pair is the captured [m] and the closure's
    error.  [m] is nil ([None]) until Decode assigns it, and what Decode
    hands back beside an error is taken to be nil. *)
Definition read_tx (table key : string) (fields : list string) (tx : Store)
  : option FieldMap * option error :=
  match tx_Bucket tx table with
  | None => (None, Some (TableNotFound table))
  | Some bucket =>
      match bucket_Get bucket key with
      | None => (None, Some (KeyNotFound table key))
      | Some row =>
          match Decode row fields with
          | Ok m => (Some m, None)
          | Err e => (None, Some e)
          end
      end
  end.

Definition Read (s : Store) (table key : string) (fields : list string)
  : option FieldMap * option error :=
  db_View s (read_tx table key fields).

(** The loop of [Scan]:
    [for i := 0; key != nil && i < count; i++ { ... }].
    [cursor] is the cursor's position, whose head is [(key, value)]. *)
Fixpoint scan_loop (fields : list string) (count : Z)
    (cursor : list (string * bytes)) (i : Z) (res : list (option FieldMap))
  : outcome (list (option FieldMap) * option error) :=
  match cursor with
  | [] => Returned (res, None)
  | (key, value) :: rest =>
      if i <? count then
        match Decode value fields with
        | Err e => Returned (res, Some e)
        | Ok m =>
            match slice_set res i m with
            | Panicked => Panicked
            | Returned res' =>
                scan_loop fields count (cursor_Next ((key, value) :: rest))
                  (i + 1) res'
            end
        end
      else Returned (res, None)
  end.

(** The closure of [Scan], run with the slice [res] it captured. *)
Definition scan_tx (table startKey : string) (count : Z) (fields : list string)
    (res : list (option FieldMap)) (tx : Store)
  : outcome (list (option FieldMap) * option error) :=
  match tx_Bucket tx table with
  | None => Returned (res, Some (TableNotFound table))
  | Some bucket =>
      let cursor := cursor_Seek bucket startKey in
      scan_loop fields count cursor 0 res
  end.

Definition Scan (s : Store) (table startKey : string) (count : Z)
    (fields : list string)
  : outcome (list (option FieldMap) * option error) :=
  match make_slice count with
  | Panicked => Panicked
  | Returned res => db_View s (scan_tx table startKey count fields res)
  end.

(** [for field, value := range values { data[field] = value }] *)
Definition overlay (values data : FieldMap) : FieldMap :=
  map_fold (λ field value data, <[field := value]> data) data values.

(** The closure of [Update]. *)
Definition update_tx (table key : string) (values : FieldMap) (tx : Store)
  : Store * option error :=
  match tx_Bucket tx table with
  | None => (tx, Some (TableNotFound table))
  | Some bucket =>
      match bucket_Get bucket key with
      | None => (tx, Some (KeyNotFound table key))
      | Some value =>
          match Decode value [] with
          | Err e => (tx, Some e)
          | Ok data =>
              let data := overlay values data in
              let buf := bufPool_Get in
              match Encode buf data with
              | Err e => (tx, Some e)
              | Ok buf => bucket_Put tx table bucket key buf
              end
          end
      end
  end.

Definition Update (s : Store) (table key : string) (values : FieldMap)
  : Store * option error :=
  db_Update s (update_tx table key values).

(** The closure of [Insert]. *)
Definition insert_tx (table key : string) (values : FieldMap) (tx : Store)
  : Store * option error :=
  match tx_CreateBucketIfNotExists tx table with
  | (tx, Err e) => (tx, Some e)
  | (tx, Ok bucket) =>
      let buf := bufPool_Get in
      match Encode buf values with
      | Err e => (tx, Some e)
      | Ok buf => bucket_Put tx table bucket key buf
      end
  end.

Definition Insert (s : Store) (table key : string) (values : FieldMap)
  : Store * option error :=
  db_Update s (insert_tx table key values).

(** The closure of [Delete]. *)
Definition delete_tx (table key : string) (tx : Store) : Store * option error :=
  match tx_Bucket tx table with
  | None => (tx, None)
  | Some bucket =>
      match bucket_Delete tx table bucket key with
      | (tx, Some e) => (tx, Some e)
      | (tx, None) => (tx, None)
      end
  end.

Definition Delete (s : Store) (table key : string) : Store * option error :=
  db_Update s (delete_tx table key).

(** ** The batch operations

    db.go has no batch operation; its tests call them. *)

(** Modelled from the spec: the batch writes are not in db.go; they "apply
    the single-record semantics above across an ordered list of keys",
    "inside one transaction per batch call", and "the first encountered
    error is returned".  [step] is the single-record closure, and [items]
    the keys, or the keys paired with their values in order. *)
Fixpoint batch_tx {K : Type} (step : K → Store → Store * option error)
    (items : list K) (tx : Store) : Store * option error :=
  match items with
  | [] => (tx, None)
  | item :: items =>
      match step item tx with
      | (tx, Some e) => (tx, Some e)
      | (tx, None) => batch_tx step items tx
      end
  end.

(** Modelled from the spec: [BatchInsert] is not in db.go;
    "BatchInsert(table, keys, values) -> error", "an ordered list of keys
    with one matching ordered list of values". *)
Definition BatchInsert (s : Store) (table : string) (keys : list string)
    (values : list FieldMap) : Store * option error :=
  db_Update s
    (batch_tx (λ kv, insert_tx table kv.1 kv.2) (zip keys values)).

(** Modelled from the spec: [BatchUpdate] is not in db.go;
    "BatchUpdate(table, keys, changes) -> error". *)
Definition BatchUpdate (s : Store) (table : string) (keys : list string)
    (values : list FieldMap) : Store * option error :=
  db_Update s
    (batch_tx (λ kv, update_tx table kv.1 kv.2) (zip keys values)).

(** Modelled from the spec: [BatchDelete] is not in db.go;
    "BatchDelete(table, keys) -> error", which "inherits the
    no-op-on-missing semantics of single Delete per key". *)
Definition BatchDelete (s : Store) (table : string) (keys : list string)
  : Store * option error :=
  db_Update s (batch_tx (delete_tx table) keys).

(** Modelled from the spec: the closure of [BatchRead], which is not in
    db.go; it "aggregates per-key Read results into an ordered result list
    matching the input key order; a failure on any key aborts the whole
    read transaction and returns that error (no partial results)".  The
    result list is nil ([None]) on an error. *)
Fixpoint batch_read_tx (table : string) (fields : list string)
    (keys : list string) (tx : Store)
  : option (list (option FieldMap)) * option error :=
  match keys with
  | [] => (Some [], None)
  | key :: keys =>
      match read_tx table key fields tx with
      | (_, Some e) => (None, Some e)
      | (m, None) =>
          match batch_read_tx table fields keys tx with
          | (Some res, None) => (Some (m :: res), None)
          | (_, err) => (None, err)
          end
      end
  end.

(** Modelled from the spec: [BatchRead] is not in db.go;
    "BatchRead(table, keys, fields) -> ordered sequence of field maps |
    error", in one read-only transaction. *)
Definition BatchRead (s : Store) (table : string) (keys : list string)
    (fields : list string) : option (list (option FieldMap)) * option error :=
  db_View s (batch_read_tx table fields keys).

End Binding.

(** ** Notions the properties are stated with *)

(** The rows under a cursor decoded in order, up to the first one the codec
    rejects, with that error. *)
Fixpoint decode_rows `{!RowCodec} (fields : list string)
    (entries : list (string * bytes)) : list FieldMap * option error :=
  match entries with
  | [] => ([], None)
  | (_, value) :: entries =>
      match Decode value fields with
      | Err e => ([], Some e)
      | Ok m =>
          let '(ms, err) := decode_rows fields entries in (m :: ms, err)
      end
  end.

(** The codec gives [m] back from the row it makes of [m] in an empty
    buffer. *)
Definition codec_round_trip `{!RowCodec} (m : FieldMap) : Prop :=
  ∀ row, Encode bufPool_Get m = Ok row → Decode row [] = Ok m.

(** Modelled from the spec: the projection of [util.RowCodec.Decode], which
    is not in db.go; "if a filter is given, return only the named fields
    present in the map (fields named but absent are simply omitted, never
    fabricated)". *)
Definition project (fields : list string) (m : FieldMap) : FieldMap :=
  filter (λ kv, kv.1 ∈ fields) m.

(** Modelled from the spec: what [util.RowCodec.Decode], which is not in
    db.go, does with a filter; "Decode the row into a full field map, then
    project: if a filter is given, return only the named fields present in
    the map", "if filter is empty/absent, return the full map". *)
Definition decode_projects `{!RowCodec} (row : bytes) (fields : list string)
  : Prop :=
  ∀ M, Decode row [] = Ok M →
       Decode row fields = Ok (if decide (fields = []) then M else project fields M).

(** The write operations, by name and arguments. *)
Inductive write_op : Type :=
  | OpUpdate (table key : string) (values : FieldMap)
  | OpInsert (table key : string) (values : FieldMap)
  | OpDelete (table key : string)
  | OpBatchInsert (table : string) (keys : list string) (values : list FieldMap)
  | OpBatchUpdate (table : string) (keys : list string) (values : list FieldMap)
  | OpBatchDelete (table : string) (keys : list string).

Definition run_write `{!RowCodec, !EngineFaults} (op : write_op) (s : Store)
  : Store * option error :=
  match op with
  | OpUpdate table key values => Update s table key values
  | OpInsert table key values => Insert s table key values
  | OpDelete table key => Delete s table key
  | OpBatchInsert table keys values => BatchInsert s table keys values
  | OpBatchUpdate table keys values => BatchUpdate s table keys values
  | OpBatchDelete table keys => BatchDelete s table keys
  end.

(** The closure a write operation runs in its transaction. *)
Definition write_closure `{!RowCodec, !EngineFaults} (op : write_op)
  : Store → Store * option error :=
  match op with
  | OpUpdate table key values => update_tx table key values
  | OpInsert table key values => insert_tx table key values
  | OpDelete table key => delete_tx table key
  | OpBatchInsert table keys values =>
      batch_tx (λ kv, insert_tx table kv.1 kv.2) (zip keys values)
  | OpBatchUpdate table keys values =>
      batch_tx (λ kv, update_tx table kv.1 kv.2) (zip keys values)
  | OpBatchDelete table keys => batch_tx (delete_tx table) keys
  end.

(** The steps of the closure of [Update] in the order it takes them, each
    with the error the closure meets when that step is the first to fail
    on [s]: the table lookup, the key lookup, Decode, Encode and Put. *)
Inductive update_fails `{!RowCodec, !EngineFaults} (table key : string)
    (values : FieldMap) (s : Store) : error → Prop :=
  | update_fails_table :
      tx_Bucket s table = None →
      update_fails table key values s (TableNotFound table)
  | update_fails_key bucket :
      tx_Bucket s table = Some bucket →
      bucket_Get bucket key = None →
      update_fails table key values s (KeyNotFound table key)
  | update_fails_decode bucket row e :
      tx_Bucket s table = Some bucket →
      bucket_Get bucket key = Some row →
      Decode row [] = Err e →
      update_fails table key values s e
  | update_fails_encode bucket row data e :
      tx_Bucket s table = Some bucket →
      bucket_Get bucket key = Some row →
      Decode row [] = Ok data →
      Encode bufPool_Get (overlay values data) = Err e →
      update_fails table key values s e
  | update_fails_put bucket row data buf tx e :
      tx_Bucket s table = Some bucket →
      bucket_Get bucket key = Some row →
      Decode row [] = Ok data →
      Encode bufPool_Get (overlay values data) = Ok buf →
      bucket_Put s table bucket key buf = (tx, Some e) →
      update_fails table key values s e.

(** The steps of the closure of [Insert]: CreateBucketIfNotExists, Encode
    and Put, the last two in the transaction the first has left. *)
Inductive insert_fails `{!RowCodec, !EngineFaults} (table key : string)
    (values : FieldMap) (s : Store) : error → Prop :=
  | insert_fails_create tx e :
      tx_CreateBucketIfNotExists s table = (tx, Err e) →
      insert_fails table key values s e
  | insert_fails_encode tx bucket e :
      tx_CreateBucketIfNotExists s table = (tx, Ok bucket) →
      Encode bufPool_Get values = Err e →
      insert_fails table key values s e
  | insert_fails_put tx bucket buf tx' e :
      tx_CreateBucketIfNotExists s table = (tx, Ok bucket) →
      Encode bufPool_Get values = Ok buf →
      bucket_Put tx table bucket key buf = (tx', Some e) →
      insert_fails table key values s e.

(** The one step of the closure of [Delete] that can fail: the engine's
    Delete on an existing table. *)
Inductive delete_fails `{!EngineFaults} (table key : string) (s : Store)
  : error → Prop :=
  | delete_fails_delete bucket tx e :
      tx_Bucket s table = Some bucket →
      bucket_Delete s table bucket key = (tx, Some e) →
      delete_fails table key s e.

(** A batch fails with the error of the first of its items whose step
    fails, in the transaction the items before it have left. *)
Definition batch_fails {K : Type} (fails : K → Store → error → Prop)
    (step : K → Store → Store * option error) (items : list K) (s : Store)
    (e : error) : Prop :=
  ∃ before item rest mid,
    items = before ++ item :: rest ∧
    batch_tx step before s = (mid, None) ∧
    fails item mid e.

(** A step of the closure of a write operation fails on [s] with [e], the
    steps before it not having failed. *)
Definition step_fails `{!RowCodec, !EngineFaults} (op : write_op) (s : Store)
    (e : error) : Prop :=
  match op with
  | OpUpdate table key values => update_fails table key values s e
  | OpInsert table key values => insert_fails table key values s e
  | OpDelete table key => delete_fails table key s e
  | OpBatchInsert table keys values =>
      batch_fails (λ kv, insert_fails table kv.1 kv.2)
        (λ kv, insert_tx table kv.1 kv.2) (zip keys values) s e
  | OpBatchUpdate table keys values =>
      batch_fails (λ kv, update_fails table kv.1 kv.2)
        (λ kv, update_tx table kv.1 kv.2) (zip keys values) s e
  | OpBatchDelete table keys =>
      batch_fails (delete_fails table) (delete_tx table) keys s e
  end.

(** ** A codec and an engine to run the operations with *)

(** linux/amd64: maxAlloc is 2^48 bytes and a map value takes 8 of them. *)
Definition amd64 : GoRuntime := {| max_slice_len := 2 ^ 45 |}.

(** An engine that reports no error from its write calls. *)
Definition no_faults : EngineFaults := {|
  create_fault := λ _ _, None;
  put_fault := λ _ _ _ _, None;
  delete_fault := λ _ _ _, None
|}.

(** An engine whose [Put] rejects the empty key and reports nothing else. *)
Definition key_required : EngineFaults := {|
  create_fault := λ _ _, None;
  put_fault := λ _ _ key _, if decide (key = "") then Some "key required" else None;
  delete_fault := λ _ _ _, None
|}.

(** The row format is not part of the codec's contract.  This codec writes
    each field as the length of its name, the name, the length of its
    value and the value, with lengths below 256. *)
Definition frame (payload : bytes) : option bytes :=
  len ← Byte.of_N (N.of_nat (length payload));
  Some (len :: payload).

Definition ref_Encode (buf : bytes) (values : FieldMap) : result bytes :=
  map_fold (λ field value acc,
      match acc with
      | Err e => Err e
      | Ok buf =>
          match frame (list_byte_of_string field), frame value with
          | Some name, Some value => Ok (buf ++ name ++ value)
          | _, _ => Err "field too long"
          end
      end) (Ok buf) values.

(** One framed payload off the front of a row. *)
Definition unframe (row : bytes) : option (bytes * bytes) :=
  match row with
  | [] => None
  | len :: row =>
      let n := N.to_nat (Byte.to_N len) in
      if decide (n ≤ length row)%nat then Some (take n row, drop n row) else None
  end.

Fixpoint ref_parse (fuel : nat) (row : bytes) : result FieldMap :=
  match row, fuel with
  | [], _ => Ok ∅
  | _, O => Err "corrupt row"
  | _, S fuel =>
      match unframe row with
      | None => Err "corrupt row"
      | Some (name, row) =>
          match unframe row with
          | None => Err "corrupt row"
          | Some (value, row) =>
              match ref_parse fuel row with
              | Err e => Err e
              | Ok m => Ok (<[string_of_list_byte name := value]> m)
              end
          end
      end
  end.

Definition ref_Decode (row : bytes) (fields : list string) : result FieldMap :=
  match ref_parse (length row) row with
  | Err e => Err e
  | Ok m => Ok (if decide (fields = []) then m else project fields m)
  end.

Definition ref_codec : RowCodec := {| Encode := ref_Encode; Decode := ref_Decode |}.

(** A codec that rejects every row and every field map. *)
Definition failing_codec : RowCodec := {|
  Encode := λ _ _, Err "encode";
  Decode := λ _ _, Err "decode"
|}.

(** ** The stores and records of the package's tests *)

(** [[]byte("...")] *)
Definition b (s : string) : bytes := list_byte_of_string s.

(** TestInsertReadDelete: {"field0": "v"}. *)
Definition vals_v : FieldMap := {[ "field0" := b "v" ]}.

(** TestUpdate: {"field0": "v", "field1": "v2"} and the change
    {"field0": "v_updated"}. *)
Definition vals_v_v2 : FieldMap := <[ "field1" := b "v2" ]> vals_v.
Definition vals_updated : FieldMap := {[ "field0" := b "v_updated" ]}.

(** TestReadWithFields: three fields, two of them asked for, and a filter
    that also names a field the record does not have. *)
Definition vals_three : FieldMap :=
  <[ "field1" := b "value1" ]> (<[ "field2" := b "value2" ]>
    {[ "field3" := b "value3" ]}).

(** The store after [Insert(table, key, vals)] on the empty store, with the
    reference codec and an engine without faults. *)
Definition store_of (table key : string) (vals : FieldMap) : Store :=
  (@Insert ref_codec no_faults ∅ table key vals).1.

(** TestScan: keyA, keyB and keyC with {"field0": [i]}. *)
Definition store_scan : Store :=
  let ins s key byte :=
    (@Insert ref_codec no_faults s "tbl" key {[ "field0" := [byte] ]}).1 in
  ins (ins (ins ∅ "keyA" Byte.x00) "keyB" Byte.x01) "keyC" Byte.x02.

(** A table whose second row is not a row of the reference codec. *)
Definition store_corrupt : Store :=
  <[ "tbl" := <[ "keyB" := [Byte.xff] ]> (default ∅ (store_scan !! "tbl")) ]> ∅.

Definition bucket_scan : Bucket := default ∅ (store_scan !! "tbl").
Definition bucket_corrupt : Bucket := default ∅ (store_corrupt !! "tbl").

(** What the scan of TestScan returns. *)
Definition res_scan : list (option FieldMap) :=
  [ Some {[ "field0" := [Byte.x00] ]};
    Some {[ "field0" := [Byte.x01] ]};
    Some {[ "field0" := [Byte.x02] ]} ].

(** TestBatchRead: k1, k2 and k3 with {"field0": "v1"}, ... *)
Definition store_batch : Store :=
  (@BatchInsert ref_codec no_faults ∅ "tbl" ["k1"; "k2"; "k3"]
     [ {[ "field0" := b "v1" ]}; {[ "field0" := b "v2" ]};
       {[ "field0" := b "v3" ]} ]).1.

(** The keys a table holds; none when the table does not exist. *)
Definition table_keys (s : Store) (table : string) : gset string :=
  dom (default ∅ (s !! table)).

(** The maps of the three records of TestScan. *)
Definition rec_A : FieldMap := {[ "field0" := [Byte.x00] ]}.
Definition rec_B : FieldMap := {[ "field0" := [Byte.x01] ]}.
Definition rec_C : FieldMap := {[ "field0" := [Byte.x02] ]}.

(** A second change for the record of TestUpdate: {"field1": "w"}. *)
Definition vals_w : FieldMap := {[ "field1" := b "w" ]}.

(** * Properties *)

(** ** The key order *)

Lemma ascii_compare_refl c : Ascii.compare c c = Eq.
Proof. unfold Ascii.compare. apply N.compare_refl. Qed.

Lemma ascii_compare_eq c d : Ascii.compare c d = Eq -> c = d.
Proof.
  unfold Ascii.compare. intros H. apply N.compare_eq in H.
  rewrite <- (ascii_N_embedding c), <- (ascii_N_embedding d). now rewrite H.
Qed.

Lemma ascii_compare_lt_trans c d e :
  Ascii.compare c d = Lt -> Ascii.compare d e = Lt -> Ascii.compare c e = Lt.
Proof.
  unfold Ascii.compare. rewrite !N.compare_lt_iff. apply N.lt_trans.
Qed.

Lemma string_compare_lt_trans s1 :
  forall s2 s3, String.compare s1 s2 = Lt -> String.compare s2 s3 = Lt ->
                String.compare s1 s3 = Lt.
Proof.
  induction s1 as [|c1 s1 IH]; intros [|c2 s2] [|c3 s3]; simpl; try congruence.
  destruct (Ascii.compare c1 c2) eqn:E12; try discriminate;
    destruct (Ascii.compare c2 c3) eqn:E23; try discriminate; intros H1 H2.
  - apply ascii_compare_eq in E12, E23. subst.
    rewrite ascii_compare_refl. eauto.
  - apply ascii_compare_eq in E12. subst. now rewrite E23.
  - apply ascii_compare_eq in E23. subst. now rewrite E12.
  - now rewrite (ascii_compare_lt_trans _ _ _ E12 E23).
Qed.

Lemma string_compare_refl a : String.compare a a = Eq.
Proof.
  induction a as [|c a IH]; simpl; [done|]. now rewrite ascii_compare_refl.
Qed.

Lemma key_lt_compare a b : key_lt a b <-> String.compare a b = Lt.
Proof.
  unfold key_lt, String.ltb. destruct (String.compare a b); split; congruence.
Qed.

Lemma key_le_compare a b : key_le a b <-> String.compare a b <> Gt.
Proof.
  unfold key_le, String.leb. destruct (String.compare a b); split; congruence.
Qed.

Lemma key_le_lt_eq a b : key_le a b <-> key_lt a b \/ a = b.
Proof.
  rewrite key_le_compare, key_lt_compare. split.
  - destruct (String.compare a b) eqn:E; intros H.
    + right. now apply String.compare_eq_iff.
    + now left.
    + congruence.
  - intros [H | ->]; [congruence|].
    rewrite string_compare_refl. discriminate.
Qed.

Lemma key_lt_irrefl a : ~ key_lt a a.
Proof.
  rewrite key_lt_compare.
  rewrite string_compare_refl. discriminate.
Qed.

#[global] Instance key_lt_trans : Transitive key_lt.
Proof.
  intros a b c. rewrite !key_lt_compare. apply string_compare_lt_trans.
Qed.

#[global] Instance key_le_refl : Reflexive key_le.
Proof. intros a. apply key_le_lt_eq. now right. Qed.

#[global] Instance key_le_trans : Transitive key_le.
Proof.
  intros a b c. rewrite !key_le_lt_eq. intros [Hab | ->] [Hbc | ->]; auto.
  left. now transitivity b.
Qed.

#[global] Instance key_le_total : Total key_le.
Proof. intros a b. apply String.leb_total. Qed.

#[global] Instance key_le_antisym : AntiSymm (=) key_le.
Proof. intros a b Hab Hba. now apply String.leb_antisym. Qed.

Lemma key_le_neq_lt a b : key_le a b -> a <> b -> key_lt a b.
Proof. rewrite key_le_lt_eq. intros [H | H]; [done | congruence]. Qed.

Lemma key_lt_le a b : key_lt a b -> key_le a b.
Proof. rewrite key_le_lt_eq. now left. Qed.

#[global] Instance entry_le_total : Total entry_le.
Proof. intros x y. apply key_le_total. Qed.

#[global] Instance entry_le_trans : Transitive entry_le.
Proof. intros x y z. apply key_le_trans. Qed.

(** ** Buckets and cursors *)

Lemma StronglySorted_sublist {A} (R : relation A) (l1 l2 : list A) :
  l1 `sublist_of` l2 → StronglySorted R l2 → StronglySorted R l1.
Proof.
  induction 1 as [|x l1 l2 Hsub IH|x l1 l2 Hsub IH]; intros Hs.
  - constructor.
  - apply StronglySorted_inv in Hs as [Hs Hall]. constructor; [auto|].
    rewrite Forall_forall in Hall |- *. intros y Hy. apply Hall.
    by eapply elem_of_sublist.
  - apply StronglySorted_inv in Hs as [Hs _]. auto.
Qed.

Lemma entries_strictly_sorted (l : list (string * bytes)) :
  StronglySorted entry_le l → NoDup l.*1 → StronglySorted entry_lt l.
Proof.
  induction 1 as [|x l Hs IH Hall]; intros Hnd; [constructor|].
  rewrite fmap_cons in Hnd. apply NoDup_cons in Hnd as [Hx Hnd].
  constructor; [auto|].
  rewrite Forall_forall in Hall |- *. intros y Hy.
  apply key_le_neq_lt; [by apply Hall|].
  intros Heq. apply Hx. rewrite Heq. by apply list_elem_of_fmap_2.
Qed.

Lemma bucket_entries_perm (bucket : Bucket) :
  bucket_entries bucket ≡ₚ map_to_list bucket.
Proof. apply merge_sort_Permutation. Qed.

Lemma bucket_entries_elem (bucket : Bucket) key value :
  (key, value) ∈ bucket_entries bucket ↔ bucket !! key = Some value.
Proof. rewrite bucket_entries_perm. apply elem_of_map_to_list. Qed.

Lemma bucket_entries_sorted (bucket : Bucket) :
  StronglySorted entry_lt (bucket_entries bucket).
Proof.
  apply entries_strictly_sorted.
  - apply (StronglySorted_merge_sort _).
  - rewrite bucket_entries_perm. apply NoDup_fst_map_to_list.
Qed.

Lemma cursor_Seek_sorted (bucket : Bucket) seek :
  StronglySorted entry_lt (cursor_Seek bucket seek).
Proof.
  eapply StronglySorted_sublist; [|apply bucket_entries_sorted].
  apply sublist_filter.
Qed.

Lemma cursor_Seek_elem (bucket : Bucket) seek key value :
  (key, value) ∈ cursor_Seek bucket seek ↔
  key_le seek key ∧ bucket !! key = Some value.
Proof.
  unfold cursor_Seek. rewrite list_elem_of_filter, bucket_entries_elem. done.
Qed.

(** The keys of a strictly sorted list of entries are strictly ascending. *)
Lemma entries_keys_sorted (l : list (string * bytes)) :
  StronglySorted entry_lt l → StronglySorted key_lt l.*1.
Proof. apply StronglySorted_fmap. by intros x y. Qed.

(** ** Slices *)

Lemma make_slice_in_range `{!GoRuntime} (n : Z) :
  0 ≤ n ≤ max_slice_len →
  make_slice n = Returned (replicate (Z.to_nat n) None).
Proof.
  intros Hn. unfold make_slice.
  destruct (Z.ltb_spec n 0); [lia|].
  destruct (Z.ltb_spec max_slice_len n); [lia|done].
Qed.

Lemma make_slice_out_of_range `{!GoRuntime} (n : Z) :
  n < 0 ∨ max_slice_len < n → make_slice n = Panicked.
Proof.
  intros Hn. unfold make_slice.
  destruct (Z.ltb_spec n 0); [done|].
  destruct (Z.ltb_spec max_slice_len n); [done|lia].
Qed.

Lemma slice_set_in_range (res : list (option FieldMap)) (i : Z) m :
  0 ≤ i < Z.of_nat (length res) →
  slice_set res i m = Returned (<[Z.to_nat i := Some m]> res).
Proof.
  intros Hi. unfold slice_set.
  destruct (Z.leb_spec 0 i); [|lia].
  destruct (Z.ltb_spec i (Z.of_nat (length res))); [done|lia].
Qed.

Lemma slice_store_next (res : list (option FieldMap)) (n : nat) x rest k :
  (n < length res)%nat →
  take (S n) (<[n := x]> res) ++ rest ++ drop (S n + k) (<[n := x]> res) =
  take n res ++ (x :: rest) ++ drop (n + S k) res.
Proof.
  intros Hn.
  rewrite (take_S_r _ n x) by (by apply list_lookup_insert_eq).
  rewrite take_insert_ge by lia. rewrite drop_insert_lt by lia.
  replace (n + S k)%nat with (S n + k)%nat by lia.
  by rewrite <- app_assoc.
Qed.

Section Properties.

Context {runtime : GoRuntime} {codec : RowCodec} {engine : EngineFaults}.

(** ** The loop of Scan *)

(** The loop stores the rows it decodes from index [i] on, stops after
    [count - i] rows or on the first row the codec rejects, and never
    writes out of range. *)
Lemma scan_loop_eq fields count cursor : ∀ i res,
  0 ≤ i → Z.of_nat (length res) = count →
  scan_loop fields count cursor i res =
    let '(ms, err) := decode_rows fields (take (Z.to_nat (count - i)) cursor) in
    Returned (take (Z.to_nat i) res ++ (Some <$> ms) ++
              drop (Z.to_nat i + length ms) res, err).
Proof.
  induction cursor as [|[key value] rest IH]; intros i res Hi Hlen.
  - rewrite take_nil. simpl. rewrite Nat.add_0_r, take_drop. done.
  - simpl scan_loop. destruct (Z.ltb_spec i count) as [Hlt|Hge].
    + replace (Z.to_nat (count - i)) with (S (Z.to_nat (count - (i + 1)))) by lia.
      simpl. destruct (Decode value fields) as [m|e].
      * rewrite slice_set_in_range by lia.
        rewrite IH by (rewrite ?length_insert; lia).
        destruct (decode_rows fields (take (Z.to_nat (count - (i + 1))) rest))
          as [ms err].
        replace (Z.to_nat (i + 1)) with (S (Z.to_nat i)) by lia.
        rewrite fmap_cons, slice_store_next by lia. done.
      * simpl. rewrite Nat.add_0_r, take_drop. done.
    + replace (Z.to_nat (count - i)) with 0%nat by lia.
      simpl. rewrite Nat.add_0_r, take_drop. done.
Qed.

(** Scan on an existing table, for a count that can be allocated. *)
Lemma Scan_eq (s : Store) table (bucket : Bucket) startKey count fields :
  s !! table = Some bucket → 0 ≤ count ≤ max_slice_len →
  Scan s table startKey count fields =
    let '(ms, err) :=
      decode_rows fields (take (Z.to_nat count) (cursor_Seek bucket startKey)) in
    Returned ((Some <$> ms) ++ replicate (Z.to_nat count - length ms) None, err).
Proof.
  intros Hb Hc. unfold Scan, db_View, scan_tx, tx_Bucket.
  rewrite make_slice_in_range, Hb by done.
  rewrite scan_loop_eq by (rewrite ?length_replicate; lia).
  rewrite Z.sub_0_r.
  destruct (decode_rows _ _) as [ms err].
  simpl. rewrite drop_replicate. done.
Qed.

(** What [decode_rows] yields: as many maps as rows decoded, each the
    decoding of its row, and the error of the first row rejected. *)
Lemma decode_rows_ok fields entries ms :
  decode_rows fields entries = (ms, None) →
  Forall2 (λ kv m, Decode kv.2 fields = Ok m) entries ms.
Proof.
  revert ms. induction entries as [|[key value] entries IH]; intros ms; simpl.
  - intros [= <-]. constructor.
  - destruct (Decode value fields) as [m|e] eqn:Hd; [|done].
    destruct (decode_rows fields entries) as [ms' err'].
    intros [= <- ->]. constructor; auto.
Qed.

Lemma decode_rows_length fields entries :
  (length (decode_rows fields entries).1 ≤ length entries)%nat.
Proof.
  induction entries as [|[key value] entries IH]; simpl; [done|].
  destruct (Decode value fields); simpl; [|lia].
  destruct (decode_rows fields entries); simpl in *. lia.
Qed.

Lemma decode_rows_err fields before kv rest ms e :
  Forall2 (λ kv m, Decode kv.2 fields = Ok m) before ms →
  Decode kv.2 fields = Err e →
  decode_rows fields (before ++ kv :: rest) = (ms, Some e).
Proof.
  intros Hall He. induction Hall as [|[k v] m before ms Hd Hall IH]; simpl.
  - destruct kv as [k v]. simpl in He. by rewrite He.
  - simpl in Hd. by rewrite Hd, IH.
Qed.

(** ** Transactions *)

Lemma db_Update_commit (s : Store) fn tx :
  fn s = (tx, None) → db_Update s fn = (tx, None).
Proof. intros H. unfold db_Update. by rewrite H. Qed.

Lemma db_Update_rollback (s : Store) fn tx e :
  fn s = (tx, Some e) → db_Update s fn = (s, Some e).
Proof. intros H. unfold db_Update. by rewrite H. Qed.

Lemma db_Update_inv_ok (s s' : Store) fn :
  db_Update s fn = (s', None) → fn s = (s', None).
Proof.
  unfold db_Update. destruct (fn s) as [tx [e|]]; [done|]. by intros [= ->].
Qed.

Lemma db_Update_inv_err (s s' : Store) fn e :
  db_Update s fn = (s', Some e) → s' = s ∧ ∃ tx, fn s = (tx, Some e).
Proof.
  unfold db_Update. destruct (fn s) as [tx [e'|]]; [|done].
  intros [= <- <-]. eauto.
Qed.

(** ** Insert and Read *)

Lemma insert_tx_ok (s s' : Store) table key values :
  insert_tx table key values s = (s', None) →
  ∃ (bucket : Bucket) row,
    Encode bufPool_Get values = Ok row ∧
    s' !! table = Some (<[key := row]> bucket).
Proof.
  unfold insert_tx, tx_CreateBucketIfNotExists.
  destruct (create_fault s table); [done|].
  destruct (s !! table) as [bucket|];
    (destruct (Encode bufPool_Get values) as [row|e] eqn:He; [|done]);
    unfold bucket_Put; (destruct (put_fault _ _ _ _); [done|]);
    intros [= <-]; eexists _, _; (split; [done|]); apply lookup_insert_eq.
Qed.

(** C1. For every table, key and non-empty field map [m] the codec gives
    back from its own row, [Read] with no field filter after an [Insert] of
    [m] that returned no error returns exactly [m]. *)
Theorem insert_then_read (s s' : Store) table key (m : FieldMap) :
  m ≠ ∅ →
  codec_round_trip m →
  Insert s table key m = (s', None) →
  Read s' table key [] = (Some m, None).
Proof.
  intros _ Hrt Hins. apply db_Update_inv_ok, insert_tx_ok in Hins.
  destruct Hins as (bucket & row & Henc & Hs').
  unfold Read, db_View, read_tx, tx_Bucket, bucket_Get.
  rewrite Hs', lookup_insert_eq, (Hrt row Henc). done.
Qed.

(** ** Update *)

(** The loop of [Update] leaves the union of the changes and the decoded
    map, the changes taking precedence. *)
Lemma overlay_union (values data : FieldMap) : overlay values data = values ∪ data.
Proof.
  unfold overlay.
  apply (map_fold_weak_ind (λ r (m : FieldMap), r = m ∪ data)).
  - by rewrite (left_id_L ∅ (∪)).
  - intros field value m r _ ->. by rewrite insert_union_l.
Qed.

Lemma update_tx_ok (s s' : Store) table key values (bucket : Bucket) row data :
  s !! table = Some bucket → bucket !! key = Some row →
  Decode row [] = Ok data →
  update_tx table key values s = (s', None) →
  ∃ row',
    Encode bufPool_Get (overlay values data) = Ok row' ∧
    s' = <[table := <[key := row']> bucket]> s.
Proof.
  intros Hb Hk Hd. unfold update_tx, tx_Bucket, bucket_Get.
  rewrite Hb, Hk, Hd.
  destruct (Encode bufPool_Get (overlay values data)) as [row'|e]; [|done].
  unfold bucket_Put. destruct (put_fault _ _ _ _); [done|].
  intros [= <-]. eauto.
Qed.

(** C2. For an existing record whose row decodes to [M] and a change map
    [C], the codec giving back the merged map from its own row: after an
    [Update] with [C] that returned no error the record decodes to the
    overlay of [C] onto [M]; every field of [C] has the value of [C] and
    every field not in [C] is as in [M]. *)
Theorem update_overlays (s s' : Store) table key (bucket : Bucket) row
    (M C : FieldMap) :
  s !! table = Some bucket → bucket !! key = Some row →
  Decode row [] = Ok M →
  codec_round_trip (overlay C M) →
  Update s table key C = (s', None) →
  ∃ M' : FieldMap,
    Read s' table key [] = (Some M', None) ∧
    M' = C ∪ M ∧
    (∀ field value, C !! field = Some value → M' !! field = Some value) ∧
    (∀ field, C !! field = None → M' !! field = M !! field).
Proof.
  intros Hb Hk Hd Hrt Hup. apply db_Update_inv_ok in Hup.
  destruct (update_tx_ok _ _ _ _ _ _ _ _ Hb Hk Hd Hup) as (row' & Henc & ->).
  exists (C ∪ M). split; [|split; [done|split]].
  - unfold Read, db_View, read_tx, tx_Bucket, bucket_Get.
    rewrite !lookup_insert_eq, (Hrt row' Henc), overlay_union. done.
  - intros field value Hf. by apply lookup_union_Some_l.
  - intros field Hf. by apply lookup_union_r.
Qed.

(** ** Absent tables and keys *)

Lemma batch_delete_no_table (s : Store) table keys :
  s !! table = None → batch_tx (delete_tx table) keys s = (s, None).
Proof.
  intros Hb. induction keys as [|key keys IH]; simpl; [done|].
  unfold delete_tx at 1, tx_Bucket. by rewrite Hb.
Qed.

(** C3 (amended). When the table does not exist, [Read] and [Update] fail
    with [TableNotFound], and so does [Scan] for a count that is not
    negative and not beyond the longest slice the runtime allocates, while
    [Delete] and [BatchDelete] return no error and leave the store as it
    is; when the table exists and the key does not, [Read] and [Update]
    fail with [KeyNotFound], while [Delete] returns no error and leaves the
    store as it is.  For any other count [Scan] panics, whether the table
    exists or not. *)
Theorem absent_table_or_key (s : Store) table key :
  (s !! table = None →
     (∀ fields, Read s table key fields = (None, Some (TableNotFound table))) ∧
     (∀ startKey count fields, 0 ≤ count ≤ max_slice_len →
        Scan s table startKey count fields =
          Returned (replicate (Z.to_nat count) None, Some (TableNotFound table))) ∧
     (∀ startKey count fields, count < 0 ∨ max_slice_len < count →
        Scan s table startKey count fields = Panicked) ∧
     (∀ values, Update s table key values = (s, Some (TableNotFound table))) ∧
     Delete s table key = (s, None) ∧
     (∀ keys, BatchDelete s table keys = (s, None))) ∧
  (∀ bucket : Bucket, s !! table = Some bucket → bucket !! key = None →
     (∀ fields, Read s table key fields = (None, Some (KeyNotFound table key))) ∧
     (∀ values, Update s table key values = (s, Some (KeyNotFound table key))) ∧
     Delete s table key = (s, None)).
Proof.
  split.
  - intros Hb. repeat split.
    + intros fields. unfold Read, db_View, read_tx, tx_Bucket. by rewrite Hb.
    + intros startKey count fields Hc. unfold Scan, db_View, scan_tx, tx_Bucket.
      by rewrite make_slice_in_range, Hb.
    + intros startKey count fields Hc. unfold Scan.
      by rewrite make_slice_out_of_range.
    + intros values. apply db_Update_rollback with (tx := s).
      unfold update_tx, tx_Bucket. by rewrite Hb.
    + apply db_Update_commit. unfold delete_tx, tx_Bucket. by rewrite Hb.
    + intros keys. apply db_Update_commit. by apply batch_delete_no_table.
  - intros bucket Hb Hk. repeat split.
    + intros fields. unfold Read, db_View, read_tx, tx_Bucket, bucket_Get.
      by rewrite Hb, Hk.
    + intros values. apply db_Update_rollback with (tx := s).
      unfold update_tx, tx_Bucket, bucket_Get. by rewrite Hb, Hk.
    + apply db_Update_commit.
      unfold delete_tx, tx_Bucket, bucket_Delete. by rewrite Hb, Hk.
Qed.

(** ** Scan *)

Lemma Scan_out_of_range (s : Store) table startKey count fields :
  count < 0 ∨ max_slice_len < count →
  Scan s table startKey count fields = Panicked.
Proof. intros Hc. unfold Scan. by rewrite make_slice_out_of_range. Qed.

Lemma Scan_returned_bounds (s : Store) table startKey count fields r :
  Scan s table startKey count fields = Returned r →
  0 ≤ count ≤ max_slice_len.
Proof.
  intros Hscan.
  destruct (Z.lt_ge_cases count 0) as [Hneg|Hc];
    [rewrite Scan_out_of_range in Hscan by auto; done|].
  destruct (Z.lt_ge_cases max_slice_len count) as [Hbig|Hle];
    [rewrite Scan_out_of_range in Hscan by auto; done|].
  done.
Qed.

Lemma scan_result_length (ms : list FieldMap) (n k : nat) :
  (length ms ≤ k)%nat → (k ≤ n)%nat →
  length ((Some <$> ms) ++ replicate (n - length ms) (@None FieldMap)) = n.
Proof.
  intros H1 H2. rewrite length_app, length_fmap, length_replicate. lia.
Qed.

Lemma scan_result_filled (ms : list FieldMap) (k i : nat) m :
  ms !! i = Some m →
  ((Some <$> ms) ++ replicate k (@None FieldMap)) !! i = Some (Some m).
Proof.
  intros Hi. apply lookup_app_l_Some. by rewrite list_lookup_fmap, Hi.
Qed.

Lemma scan_result_unfilled (ms : list FieldMap) (n i : nat) :
  (length ms ≤ i < n)%nat →
  ((Some <$> ms) ++ replicate (n - length ms) (@None FieldMap)) !! i = Some None.
Proof.
  intros Hi. rewrite lookup_app_r by (rewrite length_fmap; lia).
  rewrite length_fmap. apply lookup_replicate_2. lia.
Qed.

Lemma decode_rows_all fields entries ms :
  Forall2 (λ kv m, Decode kv.2 fields = Ok m) entries ms →
  decode_rows fields entries = (ms, None).
Proof.
  induction 1 as [|[key value] m entries ms Hd _ IH]; simpl; [done|].
  simpl in Hd. by rewrite Hd, IH.
Qed.

(** C4 (amended). On an existing table, for a count [n] that is not
    negative and not beyond the longest slice the runtime allocates, and a
    range from the start key that holds fewer than [n] records, [Scan]
    returns a slice of length exactly [n] whose entries from the number of
    records in the range on are nil maps; when the rows of the range all
    decode it returns no error and the slice holds their maps in order
    before the nil maps, and whenever it returns no error the entries
    before the nil maps are filled. *)
Theorem scan_short_range (s : Store) table (bucket : Bucket) startKey n fields :
  s !! table = Some bucket → 0 ≤ n ≤ max_slice_len →
  Z.of_nat (length (cursor_Seek bucket startKey)) < n →
  ∃ res err,
    Scan s table startKey n fields = Returned (res, err) ∧
    length res = Z.to_nat n ∧
    (∀ i, (length (cursor_Seek bucket startKey) ≤ i < Z.to_nat n)%nat →
          res !! i = Some None) ∧
    (∀ ms, Forall2 (λ kv m, Decode kv.2 fields = Ok m)
             (cursor_Seek bucket startKey) ms →
           err = None ∧
           res = (Some <$> ms) ++ replicate (Z.to_nat n - length ms) None) ∧
    (err = None →
     ∀ i, (i < length (cursor_Seek bucket startKey))%nat →
          ∃ m, res !! i = Some (Some m)).
Proof.
  intros Hb Hn Hshort. rewrite (Scan_eq _ _ _ _ _ _ Hb Hn).
  rewrite take_ge by lia.
  pose proof (decode_rows_length fields (cursor_Seek bucket startKey)) as Hlen.
  destruct (decode_rows fields (cursor_Seek bucket startKey)) as [ms err] eqn:Hd.
  simpl in Hlen. eexists _, _. split; [done|]. split; [|split; [|split]].
  - apply (scan_result_length _ _ (length (cursor_Seek bucket startKey))); lia.
  - intros i Hi. apply scan_result_unfilled. lia.
  - intros ms' Hall. apply decode_rows_all in Hall. rewrite Hd in Hall.
    by injection Hall as -> ->.
  - intros -> i Hi. apply decode_rows_ok, Forall2_length in Hd.
    destruct (lookup_lt_is_Some_2 ms i) as [m Hm]; [lia|].
    exists m. by apply scan_result_filled.
Qed.

(** C5. On an existing table, the records a [Scan] from [s] with count [n]
    returns without error are the first records of the range from [s]:
    their keys are strictly ascending, they number at most [n], each is a
    record of the table with a key greater than or equal to [s], and the
    result holds their decoded maps in that order, followed by nil maps. *)
Theorem scan_ascending (s : Store) table (bucket : Bucket) startKey n fields res :
  s !! table = Some bucket →
  Scan s table startKey n fields = Returned (res, None) →
  ∃ recs : list (string * bytes),
    recs = take (Z.to_nat n) (cursor_Seek bucket startKey) ∧
    StronglySorted key_lt recs.*1 ∧
    Z.of_nat (length recs) ≤ n ∧
    Forall (λ kv, key_le startKey kv.1 ∧ bucket !! kv.1 = Some kv.2) recs ∧
    (∀ i kv, recs !! i = Some kv →
       ∃ m, Decode kv.2 fields = Ok m ∧ res !! i = Some (Some m)) ∧
    (∀ i, (length recs ≤ i < length res)%nat → res !! i = Some None) ∧
    length res = Z.to_nat n.
Proof.
  intros Hb Hscan.
  pose proof (Scan_returned_bounds _ _ _ _ _ _ Hscan) as Hn.
  rewrite (Scan_eq _ _ _ _ _ _ Hb Hn) in Hscan.
  set (recs := take (Z.to_nat n) (cursor_Seek bucket startKey)) in *.
  assert (length recs ≤ Z.to_nat n)%nat as Hrecs
    by (unfold recs; rewrite length_take; lia).
  destruct (decode_rows fields recs) as [ms err] eqn:Hd.
  injection Hscan as <- ->.
  apply decode_rows_ok in Hd. pose proof (Forall2_length _ _ _ Hd) as Hlen.
  exists recs. split; [done|]. split; [|split; [lia|split; [|split; [|split]]]].
  - apply entries_keys_sorted.
    eapply StronglySorted_sublist; [apply sublist_take|apply cursor_Seek_sorted].
  - apply Forall_forall. intros [key value] Hin. simpl.
    apply cursor_Seek_elem. eapply elem_of_sublist; [done|apply sublist_take].
  - intros i kv Hi. destruct (Forall2_lookup_l _ _ _ _ _ Hd Hi) as (m & Hm & Hdec).
    exists m. split; [done|]. by apply scan_result_filled.
  - intros i Hi. rewrite (scan_result_length _ _ (length recs)) in Hi by lia.
    apply scan_result_unfilled. lia.
  - apply (scan_result_length _ _ (length recs)); lia.
Qed.

(** ** BatchRead *)

Lemma batch_read_tx_ok (s : Store) table fields keys res :
  Forall2 (λ key m, read_tx table key fields s = (m, None)) keys res →
  batch_read_tx table fields keys s = (Some res, None).
Proof. induction 1 as [|key m keys res Hr _ IH]; simpl; [done|]. by rewrite Hr, IH. Qed.

Lemma batch_read_tx_inv_ok (s : Store) table fields keys : ∀ res,
  batch_read_tx table fields keys s = (Some res, None) →
  Forall2 (λ key m, read_tx table key fields s = (m, None)) keys res.
Proof.
  induction keys as [|key keys IH]; simpl; intros res.
  - intros [= <-]. constructor.
  - destruct (read_tx table key fields s) as [m [e|]] eqn:Hr; [done|].
    destruct (batch_read_tx table fields keys s) as [[res'|] [e|]]; try done.
    intros [= <-]. constructor; auto.
Qed.

Lemma batch_read_tx_err (s : Store) table fields before key rest e :
  Forall (λ k, (read_tx table k fields s).2 = None) before →
  (read_tx table key fields s).2 = Some e →
  batch_read_tx table fields (before ++ key :: rest) s = (None, Some e).
Proof.
  intros Hdone Hkey. induction Hdone as [|k before Hk _ IH]; simpl.
  - destruct (read_tx table key fields s) as [m err]. simpl in Hkey. by subst.
  - destruct (read_tx table k fields s) as [m err]. simpl in Hk. subst.
    by rewrite IH.
Qed.

Lemma batch_read_tx_inv_err (s : Store) table fields keys : ∀ res e,
  batch_read_tx table fields keys s = (res, Some e) →
  res = None ∧
  ∃ before key rest,
    keys = before ++ key :: rest ∧
    Forall (λ k, (read_tx table k fields s).2 = None) before ∧
    (read_tx table key fields s).2 = Some e.
Proof.
  induction keys as [|key keys IH]; simpl; intros res e; [done|].
  destruct (read_tx table key fields s) as [m [e'|]] eqn:Hr.
  - intros [= <- <-]. split; [done|]. exists [], key, keys.
    rewrite Hr. by repeat split.
  - destruct (batch_read_tx table fields keys s) as [[res'|] [e'|]] eqn:Hb;
      intros [= <- <-];
      destruct (IH _ _ eq_refl) as (_ & before & key' & rest & -> & Hdone & Hkey);
      (split; [done|]); exists (key :: before), key', rest;
      (repeat split; [|done]); constructor; try done; by rewrite Hr.
Qed.

(** C8. A [BatchRead] that returns no error returns, in the order of the
    key list, what [Read] returns for each key; and when the [Read] of a
    key fails, the keys before it having been read, [BatchRead] returns
    that error and a nil result list; it returns no error otherwise. *)
Theorem batch_read_ordered (s : Store) table keys fields :
  (∀ res, BatchRead s table keys fields = (Some res, None) →
     Forall2 (λ key m, Read s table key fields = (m, None)) keys res) ∧
  (∀ before key rest e,
     keys = before ++ key :: rest →
     Forall (λ k, (Read s table k fields).2 = None) before →
     (Read s table key fields).2 = Some e →
     BatchRead s table keys fields = (None, Some e)) ∧
  (∀ res e, BatchRead s table keys fields = (res, Some e) →
     res = None ∧ ∃ key, key ∈ keys ∧ (Read s table key fields).2 = Some e) ∧
  (Forall (λ k, (Read s table k fields).2 = None) keys →
     ∃ res, BatchRead s table keys fields = (Some res, None)).
Proof.
  unfold BatchRead, Read, db_View. split; [|split; [|split]].
  - apply batch_read_tx_inv_ok.
  - intros before key rest e -> Hdone Hkey. by apply batch_read_tx_err.
  - intros res e Hbr.
    apply batch_read_tx_inv_err in Hbr
      as (-> & before & key & rest & -> & _ & Hkey).
    split; [done|]. exists key. split; [|done].
    apply elem_of_app. right. apply list_elem_of_here.
  - intros Hall. exists ((λ k, (read_tx table k fields s).1) <$> keys).
    apply batch_read_tx_ok. induction Hall as [|k keys Hk _ IH]; csimpl.
    + constructor.
    + constructor; [|done]. destruct (read_tx table k fields s). simpl in *. by subst.
Qed.

(** C9. On an existing table, for a count the runtime allocates, when the
    rows under the cursor decode up to a row within the count that the
    codec rejects, [Scan] returns that error together with its slice of
    length count, holding the maps decoded before the failing row and nil
    maps from there on; a [BatchRead] that returns an error returns a nil
    result list. *)
Theorem scan_decode_error (s : Store) table (bucket : Bucket) startKey n fields
    before kv rest ms e :
  s !! table = Some bucket →
  cursor_Seek bucket startKey = before ++ kv :: rest →
  Forall2 (λ kv m, Decode kv.2 fields = Ok m) before ms →
  Decode kv.2 fields = Err e →
  Z.of_nat (length before) < n →
  n ≤ max_slice_len →
  ∃ res,
    Scan s table startKey n fields = Returned (res, Some e) ∧
    res = (Some <$> ms) ++ replicate (Z.to_nat n - length ms) None ∧
    length res = Z.to_nat n ∧
    (∀ i m, ms !! i = Some m → res !! i = Some (Some m)) ∧
    (∀ i, (length before ≤ i < Z.to_nat n)%nat → res !! i = Some None) ∧
    (∀ keys res' err, BatchRead s table keys fields = (res', Some err) →
                      res' = None).
Proof.
  intros Hb Hcur Hdone He Hn Hmax. pose proof (Forall2_length _ _ _ Hdone) as Hlen.
  rewrite (Scan_eq _ _ _ _ _ _ Hb) by lia. rewrite Hcur.
  rewrite take_app_ge by lia.
  replace (Z.to_nat n - length before)%nat
    with (S (Z.to_nat n - length before - 1)) by lia.
  rewrite firstn_cons, (decode_rows_err _ _ _ _ _ _ Hdone He).
  eexists. split; [done|]. split; [done|]. split; [|split; [|split]].
  - apply (scan_result_length _ _ (length ms)); lia.
  - intros i m Hi. by apply scan_result_filled.
  - intros i Hi. apply scan_result_unfilled. lia.
  - intros keys res' err Hbr. unfold BatchRead, db_View in Hbr.
    by apply batch_read_tx_inv_err in Hbr as [? _].
Qed.

(** C10 (amended). [Scan] returns exactly for the counts that are not
    negative and not beyond the longest slice the runtime allocates: for
    such a count it returns its slice, of length count, with or without an
    error; for every other count, negative or too large, the allocation of
    the slice panics and [Scan] with it, whatever store, table, start key
    and filter it is called with, the store not being looked at. *)
Theorem scan_total_iff_in_range (s : Store) table startKey count fields :
  (0 ≤ count ≤ max_slice_len ↔
     ∃ res err, Scan s table startKey count fields = Returned (res, err) ∧
                length res = Z.to_nat count) ∧
  (count < 0 ∨ max_slice_len < count ↔
     Scan s table startKey count fields = Panicked) ∧
  (count < 0 ∨ max_slice_len < count →
     ∀ (s' : Store) table' startKey' fields',
       Scan s' table' startKey' count fields' = Panicked).
Proof.
  assert (0 ≤ count ≤ max_slice_len →
    ∃ res err, Scan s table startKey count fields = Returned (res, err) ∧
               length res = Z.to_nat count) as Hret.
  { intros Hc. destruct (s !! table) as [bucket|] eqn:Hb.
    - rewrite (Scan_eq _ _ _ _ _ _ Hb Hc).
      set (recs := take (Z.to_nat count) (cursor_Seek bucket startKey)).
      pose proof (decode_rows_length fields recs) as Hlen.
      assert (length recs ≤ Z.to_nat count)%nat
        by (unfold recs; rewrite length_take; lia).
      destruct (decode_rows fields recs) as [ms err]. simpl in Hlen.
      eexists _, _. split; [done|].
      apply (scan_result_length _ _ (length recs)); lia.
    - unfold Scan, db_View, scan_tx, tx_Bucket.
      rewrite make_slice_in_range, Hb by done.
      eexists _, _. split; [done|]. by rewrite length_replicate. }
  split; [|split].
  - split; [done|]. intros (res & err & Hscan & _).
    by apply Scan_returned_bounds in Hscan.
  - split; [apply Scan_out_of_range|]. intros Hp.
    destruct (Z.lt_ge_cases count 0) as [|Hc]; [by left|].
    destruct (Z.lt_ge_cases max_slice_len count) as [|Hle]; [by right|].
    destruct (Hret (conj Hc Hle)) as (res & err & Hscan & _). congruence.
  - intros Hc s' table' startKey' fields'. by apply Scan_out_of_range.
Qed.

(** ** Read with a field filter *)

Lemma project_lookup (fields : list string) (M : FieldMap) field value :
  project fields M !! field = Some value ↔
  M !! field = Some value ∧ field ∈ fields.
Proof. unfold project. by rewrite map_lookup_filter_Some. Qed.

Lemma project_dom (fields : list string) (M : FieldMap) :
  dom (project fields M) = list_to_set fields ∩ dom M.
Proof.
  apply set_eq. intros field.
  rewrite elem_of_intersection, elem_of_list_to_set, !elem_of_dom.
  unfold is_Some. setoid_rewrite project_lookup. split.
  - intros [Hin [value HM]]. eauto.
  - intros [value [HM Hin]]. eauto.
Qed.

(** C6. For an existing record whose row decodes to [M] and a non-empty
    filter [F], the codec projecting as the specification has it: the map a
    [Read] with [F] returns has exactly the field names of [F] that [M]
    has, each with the value [M] gives it. *)
Theorem read_with_filter (s : Store) table key (bucket : Bucket) row
    (M m : FieldMap) (F : list string) :
  s !! table = Some bucket → bucket !! key = Some row →
  Decode row [] = Ok M →
  F ≠ [] →
  decode_projects row F →
  Read s table key F = (Some m, None) →
  dom m = list_to_set F ∩ dom M ∧
  (∀ field, field ∈ dom m → field ∈ F ∧ m !! field = M !! field) ∧
  (∀ field, field ∈ F → field ∉ dom M → m !! field = None).
Proof.
  intros Hb Hk Hd HF Hproj. unfold Read, db_View, read_tx, tx_Bucket, bucket_Get.
  rewrite Hb, Hk, (Hproj M Hd). destruct (decide (F = [])) as [|_]; [done|].
  intros [= <-]. split; [apply project_dom|split].
  - intros field [value Hf]%elem_of_dom.
    apply project_lookup in Hf as Hf'. destruct Hf' as [HM HinF].
    split; [done|]. by rewrite Hf, HM.
  - intros field _ HnM. apply not_elem_of_dom. rewrite project_dom.
    by intros [_ HM]%elem_of_intersection.
Qed.

(** ** Failed writes *)

Lemma run_write_closure (op : write_op) (s : Store) :
  run_write op s = db_Update s (write_closure op).
Proof. by destruct op. Qed.

(** The closures return an error exactly when one of their steps fails,
    and then the error of that step. *)
Lemma update_tx_fails table key values (s : Store) e :
  update_fails table key values s e ↔
  ∃ tx, update_tx table key values s = (tx, Some e).
Proof.
  unfold update_tx. split.
  - intros [Hb|bucket Hb Hk|bucket row e' Hb Hk Hd|bucket row data e' Hb Hk Hd He
           |bucket row data buf tx e' Hb Hk Hd He Hp];
      rewrite Hb, ?Hk, ?Hd; simpl; rewrite ?He; eauto.
  - intros [tx Htx].
    destruct (tx_Bucket s table) as [bucket|] eqn:Hb;
      [|injection Htx as <- <-; by constructor].
    destruct (bucket_Get bucket key) as [row|] eqn:Hk;
      [|injection Htx as <- <-; by econstructor].
    destruct (Decode row []) as [data|e'] eqn:Hd;
      [|injection Htx as <- <-; by eapply update_fails_decode].
    simpl in Htx.
    destruct (Encode bufPool_Get (overlay values data)) as [buf|e'] eqn:He;
      [|injection Htx as <- <-; by eapply update_fails_encode].
    by eapply update_fails_put.
Qed.

Lemma insert_tx_fails table key values (s : Store) e :
  insert_fails table key values s e ↔
  ∃ tx, insert_tx table key values s = (tx, Some e).
Proof.
  unfold insert_tx. split.
  - intros [tx e' Hc|tx bucket e' Hc He|tx bucket buf tx' e' Hc He Hp];
      rewrite Hc; simpl; rewrite ?He; eauto.
  - intros [tx' Htx].
    destruct (tx_CreateBucketIfNotExists s table) as [tx [bucket|e']] eqn:Hc;
      [|injection Htx as <- <-; by eapply insert_fails_create].
    simpl in Htx.
    destruct (Encode bufPool_Get values) as [buf|e'] eqn:He;
      [|injection Htx as <- <-; by eapply insert_fails_encode].
    by eapply insert_fails_put.
Qed.

Lemma delete_tx_fails table key (s : Store) e :
  delete_fails table key s e ↔ ∃ tx, delete_tx table key s = (tx, Some e).
Proof.
  unfold delete_tx. split.
  - intros [bucket tx e' Hb Hd]. rewrite Hb, Hd. eauto.
  - intros [tx' Htx].
    destruct (tx_Bucket s table) as [bucket|] eqn:Hb; [|done].
    destruct (bucket_Delete s table bucket key) as [tx [e'|]] eqn:Hd; [|done].
    injection Htx as <- <-. by econstructor.
Qed.

Lemma batch_tx_fails {K} (fails : K → Store → error → Prop)
    (step : K → Store → Store * option error) :
  (∀ item (s : Store) e, fails item s e ↔ ∃ tx, step item s = (tx, Some e)) →
  ∀ items (s : Store) e,
    batch_fails fails step items s e ↔
    ∃ tx, batch_tx step items s = (tx, Some e).
Proof.
  intros Hstep items. induction items as [|item items IH]; intros s e.
  - split.
    + intros (before & item & rest & mid & Heq & _). by destruct before.
    + by intros [tx Htx].
  - simpl. destruct (step item s) as [tx' [e'|]] eqn:Hs.
    + split.
      * intros (before & item' & rest & mid & Heq & Hbefore & Hfail).
        destruct before as [|item0 before]; simplify_eq/=.
        -- apply Hstep in Hfail as [tx Hfail]. rewrite Hs in Hfail.
           injection Hfail as <- <-. eauto.
        -- by rewrite Hs in Hbefore.
      * intros [tx [= <- <-]]. exists [], item, items, s.
        split; [done|]. split; [done|]. apply Hstep. eauto.
    + rewrite <- IH. split.
      * intros (before & item' & rest & mid & Heq & Hbefore & Hfail).
        destruct before as [|item0 before]; simplify_eq/=.
        -- apply Hstep in Hfail as [tx Hfail]. by rewrite Hs in Hfail.
        -- rewrite Hs in Hbefore. by exists before, item', rest, mid.
      * intros (before & item' & rest & mid & -> & Hbefore & Hfail).
        exists (item :: before), item', rest, mid.
        split; [done|]. split; [|done]. simpl. by rewrite Hs.
Qed.

Lemma write_closure_fails (op : write_op) (s : Store) e :
  step_fails op s e ↔ ∃ tx, write_closure op s = (tx, Some e).
Proof.
  destruct op; simpl.
  - apply update_tx_fails.
  - apply insert_tx_fails.
  - apply delete_tx_fails.
  - apply batch_tx_fails. intros [k v] s0 e0. apply insert_tx_fails.
  - apply batch_tx_fails. intros [k v] s0 e0. apply update_tx_fails.
  - apply batch_tx_fails. intros k s0 e0. apply delete_tx_fails.
Qed.

(** C7. For every write operation ([Update], [Insert], [Delete] and the
    batch writes): when a step of its closure fails, the steps before it
    not having failed (for a batch: a step of the first item that fails),
    the operation returns the error of that step and leaves the store as
    it was, whatever the earlier steps and items wrote in the
    transaction; and whenever the operation returns an error the store is
    unchanged and the error is that of such a first failing step. *)
Theorem failed_write_rolls_back (op : write_op) (s : Store) :
  (∀ e, step_fails op s e → run_write op s = (s, Some e)) ∧
  (∀ s' e, run_write op s = (s', Some e) → s' = s ∧ step_fails op s e).
Proof.
  split.
  - intros e [tx Hfail]%write_closure_fails.
    rewrite run_write_closure. by eapply db_Update_rollback.
  - intros s' e Hrun. rewrite run_write_closure in Hrun.
    apply db_Update_inv_err in Hrun as [-> Hfail]. split; [done|].
    by apply write_closure_fails.
Qed.

End Properties.

(** * The properties on the stores of the tests *)

Lemma insert_then_read_witness :
  @Read ref_codec (@Insert ref_codec no_faults ∅ "tbl" "k1" vals_v).1 "tbl" "k1" []
  = (Some vals_v, None).
Proof.
  apply (@insert_then_read ref_codec no_faults ∅ _ "tbl" "k1" vals_v).
  - done.
  - intros row Henc. vm_compute in Henc. injection Henc as <-. by vm_compute.
  - by vm_compute.
Defined.

Lemma update_overlays_witness :
  ∃ M' : FieldMap,
    @Read ref_codec
      (@Update ref_codec no_faults (store_of "tbl" "k1" vals_v_v2)
         "tbl" "k1" vals_updated).1 "tbl" "k1" [] = (Some M', None) ∧
    M' = vals_updated ∪ vals_v_v2 ∧
    (∀ field value,
       vals_updated !! field = Some value → M' !! field = Some value) ∧
    (∀ field, vals_updated !! field = None → M' !! field = vals_v_v2 !! field).
Proof.
  eapply (@update_overlays ref_codec no_faults (store_of "tbl" "k1" vals_v_v2)
            _ "tbl" "k1").
  - by vm_compute.
  - by vm_compute.
  - by vm_compute.
  - intros row Henc. vm_compute in Henc. injection Henc as <-. by vm_compute.
  - by vm_compute.
Defined.

Lemma absent_table_or_key_witness :
  @Delete no_faults ∅ "nonexistent" "k1" = (∅, None) ∧
  @Scan amd64 ref_codec ∅ "nonexistent" "k1" 3 []
  = Returned (replicate (Z.to_nat 3) None, Some (TableNotFound "nonexistent")) ∧
  @Read ref_codec (store_of "tbl" "k1" vals_v) "tbl" "k2" []
  = (None, Some (KeyNotFound "tbl" "k2")).
Proof.
  destruct (@absent_table_or_key amd64 ref_codec no_faults ∅ "nonexistent" "k1")
    as [Habsent _].
  destruct Habsent as (_ & Hscan & _ & _ & Hdelete & _); [by vm_compute|].
  split; [done|]. split; [apply Hscan; split; by vm_compute|].
  eapply (proj2 (@absent_table_or_key amd64 ref_codec no_faults
                   (store_of "tbl" "k1" vals_v) "tbl" "k2")); by vm_compute.
Defined.

(** On a store without the table, [Scan] with a negative count, and with a
    count beyond what the runtime allocates, panics and returns no
    error. *)
Lemma absent_table_scan_panics :
  (∅ : Store) !! "tbl" = None ∧
  @Scan amd64 ref_codec ∅ "tbl" "k1" (-1) [] = Panicked ∧
  @Scan amd64 ref_codec ∅ "tbl" "k1" (2 ^ 62) [] = Panicked.
Proof. repeat split; by vm_compute. Qed.

(** On the table of TestScan, whose range from keyA holds three records,
    [Scan] with the count 2^62 returns no slice: it panics. *)
Lemma scan_short_range_too_long :
  store_scan !! "tbl" = Some bucket_scan ∧
  0 ≤ 2 ^ 62 ∧
  Z.of_nat (length (cursor_Seek bucket_scan "keyA")) < 2 ^ 62 ∧
  @Scan amd64 ref_codec store_scan "tbl" "keyA" (2 ^ 62) [] = Panicked.
Proof. repeat split; by vm_compute. Qed.

Lemma scan_short_range_witness :
  ∃ res err,
    @Scan amd64 ref_codec store_scan "tbl" "keyB" 5 [] = Returned (res, err) ∧
    length res = Z.to_nat 5 ∧
    (∀ i, (length (cursor_Seek bucket_scan "keyB") ≤ i < Z.to_nat 5)%nat →
          res !! i = Some None) ∧
    (∀ ms, Forall2 (λ kv m, @Decode ref_codec kv.2 [] = Ok m)
             (cursor_Seek bucket_scan "keyB") ms →
           err = None ∧
           res = (Some <$> ms) ++ replicate (Z.to_nat 5 - length ms) None) ∧
    (err = None →
     ∀ i, (i < length (cursor_Seek bucket_scan "keyB"))%nat →
          ∃ m, res !! i = Some (Some m)).
Proof.
  apply (@scan_short_range amd64 ref_codec store_scan "tbl" bucket_scan "keyB" 5 []).
  - by vm_compute.
  - split; by vm_compute.
  - by vm_compute.
Defined.

Lemma scan_ascending_witness :
  ∃ recs : list (string * bytes),
    recs = take (Z.to_nat 3) (cursor_Seek bucket_scan "keyA") ∧
    StronglySorted key_lt recs.*1 ∧
    Z.of_nat (length recs) ≤ 3 ∧
    Forall (λ kv, key_le "keyA" kv.1 ∧ bucket_scan !! kv.1 = Some kv.2) recs ∧
    (∀ i kv, recs !! i = Some kv →
       ∃ m, @Decode ref_codec kv.2 [] = Ok m ∧ res_scan !! i = Some (Some m)) ∧
    (∀ i, (length recs ≤ i < length res_scan)%nat → res_scan !! i = Some None) ∧
    length res_scan = Z.to_nat 3.
Proof.
  apply (@scan_ascending amd64 ref_codec store_scan "tbl" bucket_scan "keyA" 3 []
           res_scan); by vm_compute.
Defined.

Lemma read_with_filter_witness :
  ∃ m : FieldMap,
    @Read ref_codec (store_of "tbl" "k1" vals_three) "tbl" "k1"
      ["field1"; "field3"; "field7"] = (Some m, None) ∧
    m = <[ "field1" := b "value1" ]> {[ "field3" := b "value3" ]} ∧
    dom m = list_to_set ["field1"; "field3"; "field7"] ∩ dom vals_three ∧
    (∀ field, field ∈ dom m →
       field ∈ ["field1"; "field3"; "field7"] ∧ m !! field = vals_three !! field) ∧
    (∀ field, field ∈ ["field1"; "field3"; "field7"] →
       field ∉ dom vals_three → m !! field = None).
Proof.
  eexists. split; [by vm_compute|]. split; [done|].
  eapply (@read_with_filter ref_codec (store_of "tbl" "k1" vals_three)
            "tbl" "k1").
  - by vm_compute.
  - by vm_compute.
  - by vm_compute.
  - done.
  - intros M HM. vm_compute in HM. injection HM as <-. by vm_compute.
  - by vm_compute.
Defined.

Lemma failed_write_rolls_back_witness :
  (* the second key of a batch is absent: the update of the first is undone *)
  @run_write ref_codec no_faults
    (OpBatchUpdate "tbl" ["k1"; "k2"] [vals_updated; vals_updated])
    (store_of "tbl" "k1" vals_v_v2)
  = (store_of "tbl" "k1" vals_v_v2, Some (KeyNotFound "tbl" "k2")) ∧
  (* Encode fails after the table was created: the table is not kept *)
  @run_write failing_codec no_faults (OpInsert "tbl" "k1" vals_v) ∅
  = (∅, Some "encode") ∧
  (* the engine rejects the second key of a batch: the first is not kept *)
  @run_write ref_codec key_required
    (OpBatchInsert "tbl" ["k1"; ""] [vals_v; vals_v]) ∅
  = (∅, Some "key required").
Proof.
  split; [|split].
  - apply (proj1 (@failed_write_rolls_back ref_codec no_faults _ _)).
    exists [("k1", vals_updated)], ("k2", vals_updated), [].
    eexists. split; [done|]. split; [by vm_compute|].
    eapply update_fails_key; by vm_compute.
  - apply (proj1 (@failed_write_rolls_back failing_codec no_faults _ _)).
    eapply insert_fails_encode; by vm_compute.
  - apply (proj1 (@failed_write_rolls_back ref_codec key_required _ _)).
    exists [("k1", vals_v)], ("", vals_v), [].
    eexists. split; [done|]. split; [by vm_compute|].
    eapply insert_fails_put; by vm_compute.
Defined.

Lemma batch_read_ordered_witness :
  Forall2 (λ key m, @Read ref_codec store_batch "tbl" key [] = (m, None))
    ["k3"; "k1"]
    [ Some {[ "field0" := b "v3" ]}; Some {[ "field0" := b "v1" ]} ] ∧
  @BatchRead ref_codec store_batch "tbl" ["k1"; "k9"; "k3"] []
  = (None, Some (KeyNotFound "tbl" "k9")).
Proof.
  split.
  - apply (proj1 (@batch_read_ordered ref_codec store_batch "tbl" ["k3"; "k1"] [])).
    by vm_compute.
  - apply (proj1 (proj2 (@batch_read_ordered ref_codec store_batch "tbl"
                           ["k1"; "k9"; "k3"] [])) ["k1"] "k9" ["k3"]).
    + done.
    + repeat constructor.
    + by vm_compute.
Defined.

Lemma scan_decode_error_witness :
  ∃ res,
    @Scan amd64 ref_codec store_corrupt "tbl" "keyA" 3 []
    = Returned (res, Some "corrupt row") ∧
    res = (Some <$> [ ({[ "field0" := [Byte.x00] ]} : FieldMap) ]) ++
          replicate (Z.to_nat 3 - 1) None ∧
    length res = Z.to_nat 3 ∧
    (∀ i m, [ ({[ "field0" := [Byte.x00] ]} : FieldMap) ] !! i = Some m →
            res !! i = Some (Some m)) ∧
    (∀ i, (1 ≤ i < Z.to_nat 3)%nat → res !! i = Some None) ∧
    (∀ keys res' err,
       @BatchRead ref_codec store_corrupt "tbl" keys [] = (res', Some err) →
       res' = None).
Proof.
  eapply (@scan_decode_error amd64 ref_codec store_corrupt "tbl" bucket_corrupt
            "keyA" 3 [] [("keyA", _)] ("keyB", [Byte.xff]) [_]
            [ {[ "field0" := [Byte.x00] ]} ] "corrupt row").
  - by vm_compute.
  - by vm_compute.
  - repeat constructor.
  - by vm_compute.
  - by vm_compute.
  - by vm_compute.
Defined.

Lemma scan_total_iff_in_range_witness :
  (* three records from keyA on, a count of five *)
  (∃ res err,
     @Scan amd64 ref_codec store_scan "tbl" "keyA" 5 [] = Returned (res, err) ∧
     length res = Z.to_nat 5) ∧
  (* a table with a row the codec rejects: Scan returns all the same *)
  (∃ res err,
     @Scan amd64 ref_codec store_corrupt "tbl" "keyA" 3 [] = Returned (res, err) ∧
     length res = Z.to_nat 3) ∧
  @Scan amd64 ref_codec store_scan "tbl" "keyA" (-3) [] = Panicked ∧
  @Scan amd64 ref_codec store_scan "tbl" "keyA" (2 ^ 45 + 1) [] = Panicked.
Proof.
  split; [|split; [|split]].
  - apply (proj1 (proj1
      (@scan_total_iff_in_range amd64 ref_codec store_scan "tbl" "keyA" 5 []))).
    split; by vm_compute.
  - apply (proj1 (proj1
      (@scan_total_iff_in_range amd64 ref_codec store_corrupt "tbl" "keyA" 3 []))).
    split; by vm_compute.
  - apply (proj1 (proj1 (proj2
      (@scan_total_iff_in_range amd64 ref_codec store_scan "tbl" "keyA" (-3) [])))).
    left. by vm_compute.
  - apply (proj1 (proj1 (proj2
      (@scan_total_iff_in_range amd64 ref_codec store_scan "tbl" "keyA"
         (2 ^ 45 + 1) [])))).
    right. by vm_compute.
Defined.

(** [Scan] with the count 2^62, which is not negative, does not return: the
    allocation of its slice panics. *)
Lemma scan_nonneg_count_panics :
  0 ≤ 2 ^ 62 ∧
  @Scan amd64 ref_codec store_scan "tbl" "keyA" (2 ^ 62) [] = Panicked.
Proof. split; by vm_compute. Qed.

(** * How the operations of db.go compose *)

Lemma key_lt_not_le a b : key_lt a b → ¬ key_le b a.
Proof.
  intros Hlt [Hba | ->]%key_le_lt_eq.
  - apply (key_lt_irrefl a). by transitivity b.
  - by apply (key_lt_irrefl a).
Qed.

Lemma bucket_entries_empty : bucket_entries ∅ = [].
Proof. unfold bucket_entries. by rewrite map_to_list_empty. Qed.

Lemma cursor_Seek_empty seek : cursor_Seek ∅ seek = [].
Proof. unfold cursor_Seek. by rewrite bucket_entries_empty. Qed.

(** The cursor stands on the seek key itself when the bucket holds it. *)
Lemma cursor_Seek_head (bucket : Bucket) key row :
  bucket !! key = Some row →
  ∃ rest, cursor_Seek bucket key = (key, row) :: rest.
Proof.
  intros Hk.
  assert ((key, row) ∈ cursor_Seek bucket key) as Hin
    by (by apply cursor_Seek_elem).
  pose proof (cursor_Seek_sorted bucket key) as Hs.
  destruct (cursor_Seek bucket key) as [|[k v] rest] eqn:Hc.
  { by apply not_elem_of_nil in Hin. }
  assert ((k, v) ∈ cursor_Seek bucket key) as Hhd by (rewrite Hc; left).
  apply cursor_Seek_elem in Hhd as [Hle Hv].
  apply elem_of_cons in Hin as [[= <- <-]|Hin]; [by eexists|].
  apply StronglySorted_inv in Hs as [_ Hall].
  rewrite Forall_forall in Hall. apply Hall in Hin.
  by apply key_lt_not_le in Hin.
Qed.

Lemma decode_rows_take `{!RowCodec} fields entries ms (k : nat) :
  decode_rows fields entries = (ms, None) →
  decode_rows fields (take k entries) = (take k ms, None).
Proof.
  revert ms k. induction entries as [|[key value] entries IH]; intros ms k; simpl.
  - intros [= <-]. by rewrite !take_nil.
  - destruct (Decode value fields) as [m|e] eqn:Hd; [|done].
    destruct (decode_rows fields entries) as [ms' err'] eqn:Hr.
    intros [= <- ->]. destruct k as [|k]; simpl; [done|].
    by rewrite Hd, (IH ms' k eq_refl).
Qed.

Lemma decode_rows_inv_err `{!RowCodec} fields entries ms e :
  decode_rows fields entries = (ms, Some e) →
  ∃ before kv rest,
    entries = before ++ kv :: rest ∧
    Forall2 (λ kv m, Decode kv.2 fields = Ok m) before ms ∧
    Decode kv.2 fields = Err e.
Proof.
  revert ms. induction entries as [|[key value] entries IH]; intros ms; simpl.
  - done.
  - destruct (Decode value fields) as [m|e'] eqn:Hd.
    + destruct (decode_rows fields entries) as [ms' err'] eqn:Hr.
      intros [= <- ->].
      destruct (IH ms' eq_refl) as (before & kv & rest & -> & Hall & He).
      exists ((key, value) :: before), kv, rest.
      split; [done|]. split; [|done]. by constructor.
    + intros [= <- <-]. exists [], (key, value), entries.
      split; [done|]. split; [constructor|done].
Qed.

Section Compositions.

Context {runtime : GoRuntime} {codec : RowCodec} {engine : EngineFaults}.

(** What the closures leave in the transaction when they return no error. *)
Lemma insert_tx_inv (s s' : Store) table key values :
  insert_tx table key values s = (s', None) →
  ∃ row,
    Encode bufPool_Get values = Ok row ∧
    s' = <[table := <[key := row]> (default ∅ (s !! table))]> s.
Proof.
  unfold insert_tx, tx_CreateBucketIfNotExists.
  destruct (create_fault s table); [done|].
  destruct (s !! table) as [bucket|] eqn:Hb;
    (destruct (Encode bufPool_Get values) as [row|e] eqn:He; [|done]);
    unfold bucket_Put; (destruct (put_fault _ _ _ _); [done|]);
    intros [= <-]; exists row; (split; [done|]); simpl; [done|].
  by rewrite insert_insert_eq.
Qed.

Lemma delete_tx_inv (s s' : Store) table key :
  delete_tx table key s = (s', None) →
  s' = match s !! table with
       | None => s
       | Some bucket => <[table := delete key bucket]> s
       end.
Proof.
  unfold delete_tx, tx_Bucket, bucket_Delete.
  destruct (s !! table) as [bucket|] eqn:Hb; [|by intros [= <-]].
  destruct (bucket !! key) as [row|] eqn:Hk.
  - destruct (delete_fault s table key); [done|]. by intros [= <-].
  - intros [= <-]. rewrite delete_id by done. by rewrite insert_id.
Qed.

Lemma update_tx_inv (s s' : Store) table key values :
  update_tx table key values s = (s', None) →
  ∃ (bucket : Bucket) row data row',
    s !! table = Some bucket ∧ bucket !! key = Some row ∧
    Decode row [] = Ok data ∧
    Encode bufPool_Get (overlay values data) = Ok row' ∧
    s' = <[table := <[key := row']> bucket]> s.
Proof.
  unfold update_tx, tx_Bucket, bucket_Get.
  destruct (s !! table) as [bucket|] eqn:Hb; [|done].
  destruct (bucket !! key) as [row|] eqn:Hk; [|done].
  destruct (Decode row []) as [data|e] eqn:Hd; [|done].
  destruct (Encode bufPool_Get (overlay values data)) as [row'|e] eqn:He; [|done].
  unfold bucket_Put. destruct (put_fault _ _ _ _); [done|].
  intros [= <-]. by eexists _, _, _, _.
Qed.

(** [Read] and [Scan] look at one table only. *)
Lemma Read_table (s1 s2 : Store) table key fields :
  s1 !! table = s2 !! table →
  Read s1 table key fields = Read s2 table key fields.
Proof. intros H. unfold Read, db_View, read_tx, tx_Bucket. by rewrite H. Qed.

Lemma Scan_table (s1 s2 : Store) table startKey count fields :
  s1 !! table = s2 !! table →
  Scan s1 table startKey count fields = Scan s2 table startKey count fields.
Proof.
  intros H. unfold Scan, db_View, scan_tx, tx_Bucket. by rewrite H.
Qed.

Lemma Read_row (s : Store) table (bucket : Bucket) key fields :
  s !! table = Some bucket →
  Read s table key fields =
    match bucket !! key with
    | None => (None, Some (KeyNotFound table key))
    | Some row =>
        match Decode row fields with
        | Ok m => (Some m, None)
        | Err e => (None, Some e)
        end
    end.
Proof.
  intros Hb. unfold Read, db_View, read_tx, tx_Bucket, bucket_Get. by rewrite Hb.
Qed.

(** X1. After a [Delete] that returned no error on an existing table, [Read]
    and [Update] of the key fail with [KeyNotFound], no cursor of the table
    stands on the key any more, and a second [Delete] of the key returns
    no error and changes nothing. *)
Theorem delete_then_read (s s' : Store) table key (bucket : Bucket) :
  s !! table = Some bucket →
  Delete s table key = (s', None) →
  (∀ fields, Read s' table key fields = (None, Some (KeyNotFound table key))) ∧
  (∀ values, Update s' table key values = (s', Some (KeyNotFound table key))) ∧
  (∀ (bucket' : Bucket) startKey value,
     s' !! table = Some bucket' → (key, value) ∉ cursor_Seek bucket' startKey) ∧
  Delete s' table key = (s', None).
Proof.
  intros Hb Hdel. apply db_Update_inv_ok, delete_tx_inv in Hdel.
  rewrite Hb in Hdel. subst s'.
  assert ((<[table := delete key bucket]> s) !! table = Some (delete key bucket))
    as Hb' by apply lookup_insert_eq.
  split; [|split; [|split]].
  - intros fields. by rewrite (Read_row _ _ _ _ _ Hb'), lookup_delete_eq.
  - intros values. eapply db_Update_rollback.
    unfold update_tx, tx_Bucket, bucket_Get. by rewrite Hb', lookup_delete_eq.
  - intros bucket' startKey value Hb''. rewrite Hb' in Hb''.
    injection Hb'' as <-. rewrite cursor_Seek_elem, lookup_delete_eq.
    by intros [_ ?].
  - apply db_Update_commit.
    unfold delete_tx, tx_Bucket, bucket_Delete. by rewrite Hb', lookup_delete_eq.
Qed.

(** What a single write leaves of the store, whatever it returns: the store
    as it was, or the store with the table replaced by a bucket that
    differs from the old one (empty when there was none) at most at the
    key. *)
Lemma single_write_effect (s s' : Store) table key err :
  (∃ values, Update s table key values = (s', err)) ∨
  (∃ values, Insert s table key values = (s', err)) ∨
  Delete s table key = (s', err) →
  s' = s ∨
  ∃ bucket' : Bucket,
    s' = <[table := bucket']> s ∧
    ∀ k, k ≠ key → bucket' !! k = default ∅ (s !! table) !! k.
Proof.
  intros Hop. destruct err as [e|].
  { left. destruct Hop as [[values Hop]|[[values Hop]|Hop]];
      by apply db_Update_inv_err in Hop as [-> _]. }
  destruct Hop as [[values Hop]|[[values Hop]|Hop]].
  - apply db_Update_inv_ok, update_tx_inv in Hop
      as (bucket & row & data & row' & Hb & Hk & _ & _ & ->).
    right. eexists. split; [done|]. intros k Hne. rewrite Hb. simpl.
    by rewrite lookup_insert_ne.
  - apply db_Update_inv_ok, insert_tx_inv in Hop as (row & _ & ->).
    right. eexists. split; [done|]. intros k Hne. by rewrite lookup_insert_ne.
  - apply db_Update_inv_ok, delete_tx_inv in Hop.
    destruct (s !! table) as [bucket|] eqn:Hb; [|by left].
    right. eexists. split; [done|]. intros k Hne. simpl.
    by rewrite lookup_delete_ne.
Qed.

(** X2. Whatever [Update], [Insert] or [Delete] of one record returns,
    [Read] of a record of another table, or of another key of the same
    table when that table existed before, returns what it returned
    before, and so does [Scan] of another table. *)
Theorem write_leaves_other_records (s s' : Store) table key err table' key' :
  (∃ values, Update s table key values = (s', err)) ∨
  (∃ values, Insert s table key values = (s', err)) ∨
  Delete s table key = (s', err) →
  (table' ≠ table ∨ (key' ≠ key ∧ is_Some (s !! table))) →
  (∀ fields, Read s' table' key' fields = Read s table' key' fields) ∧
  (table' ≠ table →
   ∀ startKey count fields,
     Scan s' table' startKey count fields = Scan s table' startKey count fields).
Proof.
  intros Hop Hother.
  apply single_write_effect in Hop as [->|(bucket' & -> & Hrows)]; [done|].
  split.
  - intros fields. destruct (decide (table' = table)) as [->|Hne].
    + destruct Hother as [?|[Hkey [bucket Hb]]]; [done|].
      rewrite (Read_row _ _ bucket' _ _ (lookup_insert_eq _ _ _)).
      rewrite (Read_row _ _ bucket _ _ Hb).
      rewrite (Hrows key' Hkey), Hb. done.
    + apply Read_table. by rewrite lookup_insert_ne.
  - intros Hne startKey count fields. apply Scan_table.
    by rewrite lookup_insert_ne.
Qed.

(** X3. [Insert] of a key and then [Delete] of it, both without error: on a
    table that existed and did not hold the key the store is as it was
    before; on a table that did not exist the two leave the table behind,
    empty, so that [Read] now fails with [KeyNotFound] and [Scan], for a
    count that is not negative and that the runtime allocates, returns its
    nil maps without error. *)
Theorem insert_then_delete (s s1 s2 : Store) table key values :
  Insert s table key values = (s1, None) →
  Delete s1 table key = (s2, None) →
  (∀ bucket : Bucket, s !! table = Some bucket → bucket !! key = None → s2 = s) ∧
  (s !! table = None →
     s2 = <[table := ∅]> s ∧
     (∀ key' fields,
        Read s2 table key' fields = (None, Some (KeyNotFound table key'))) ∧
     (∀ startKey count fields, 0 ≤ count ≤ max_slice_len →
        Scan s2 table startKey count fields =
          Returned (replicate (Z.to_nat count) None, None))).
Proof.
  intros Hins Hdel.
  apply db_Update_inv_ok, insert_tx_inv in Hins as (row & _ & ->).
  apply db_Update_inv_ok, delete_tx_inv in Hdel.
  rewrite lookup_insert_eq, insert_insert_eq, delete_insert_eq in Hdel. subst s2.
  split.
  - intros bucket Hb Hk. rewrite Hb. simpl.
    rewrite delete_id by done. by apply insert_id.
  - intros Hb. rewrite Hb. simpl. rewrite delete_empty.
    assert ((<[table := ∅]> s) !! table = Some (∅ : Bucket)) as Hb'
      by apply lookup_insert_eq.
    split; [done|]. split.
    + intros key' fields. by rewrite (Read_row _ _ _ _ _ Hb'), lookup_empty.
    + intros startKey count fields Hc.
      rewrite (Scan_eq _ _ _ _ _ _ Hb' Hc), cursor_Seek_empty, take_nil.
      simpl. by rewrite Nat.sub_0_r.
Qed.

(** X4. An [Insert] that returned no error adds exactly its key to the keys
    of its table, and its table to the tables of the store. *)
Theorem insert_adds_one_key (s s' : Store) table key values :
  Insert s table key values = (s', None) →
  table_keys s' table = {[key]} ∪ table_keys s table ∧
  dom s' = {[table]} ∪ dom s.
Proof.
  intros Hins. apply db_Update_inv_ok, insert_tx_inv in Hins as (row & _ & ->).
  unfold table_keys. rewrite lookup_insert_eq, dom_insert_L. simpl.
  by rewrite dom_insert_L.
Qed.

(** X5. A [Delete] that returned no error removes exactly its key from the
    keys of its table and leaves the tables of the store as they were: it
    neither creates the table nor drops it when its last key goes. *)
Theorem delete_removes_one_key (s s' : Store) table key :
  Delete s table key = (s', None) →
  table_keys s' table = table_keys s table ∖ {[key]} ∧
  dom s' = dom s.
Proof.
  intros Hdel. apply db_Update_inv_ok, delete_tx_inv in Hdel.
  unfold table_keys. destruct (s !! table) as [bucket|] eqn:Hb; subst s'.
  - rewrite lookup_insert_eq, dom_insert_L. simpl. rewrite dom_delete_L.
    split; [done|]. apply elem_of_dom_2 in Hb. set_solver.
  - rewrite Hb. simpl. rewrite dom_empty_L. set_solver.
Qed.

(** X6. An [Update] that returned no error found its key in its table, and
    leaves the keys of the table and the tables of the store as they
    were: it never creates a record. *)
Theorem update_keeps_keys (s s' : Store) table key values :
  Update s table key values = (s', None) →
  key ∈ table_keys s table ∧
  table_keys s' table = table_keys s table ∧
  dom s' = dom s.
Proof.
  intros Hup. apply db_Update_inv_ok, update_tx_inv in Hup
    as (bucket & row & data & row' & Hb & Hk & _ & _ & ->).
  unfold table_keys. rewrite lookup_insert_eq, Hb, !dom_insert_L. simpl.
  apply elem_of_dom_2 in Hb, Hk. set_solver.
Qed.

(** X7. Two [Update]s of a record in a row, both without error, leave what
    one [Update] with the later change map laid over the earlier one
    leaves: the record decodes to the later changes over the earlier
    changes over what it held, the codec giving the merged maps back. *)
Theorem update_twice (s s1 s2 : Store) table key (bucket : Bucket) row
    (M C1 C2 : FieldMap) :
  s !! table = Some bucket → bucket !! key = Some row →
  Decode row [] = Ok M →
  codec_round_trip (overlay C1 M) →
  codec_round_trip (overlay (C2 ∪ C1) M) →
  Update s table key C1 = (s1, None) →
  Update s1 table key C2 = (s2, None) →
  Read s2 table key [] = (Some ((C2 ∪ C1) ∪ M), None).
Proof.
  intros Hb Hk Hd Hrt1 Hrt2 Hup1 Hup2.
  apply db_Update_inv_ok, update_tx_inv in Hup1
    as (bucket0 & row0 & data & row1 & Hb0 & Hk0 & Hd0 & Henc1 & ->).
  rewrite Hb in Hb0. injection Hb0 as <-.
  rewrite Hk in Hk0. injection Hk0 as <-.
  rewrite Hd in Hd0. injection Hd0 as <-.
  apply db_Update_inv_ok, update_tx_inv in Hup2
    as (bucket1 & row1' & data1 & row2 & Hb1 & Hk1 & Hd1 & Henc2 & ->).
  rewrite lookup_insert_eq in Hb1. injection Hb1 as <-.
  rewrite lookup_insert_eq in Hk1. injection Hk1 as <-.
  rewrite (Hrt1 row1 Henc1) in Hd1. injection Hd1 as <-.
  rewrite !overlay_union, (assoc_L (∪)) in Henc2.
  rewrite overlay_union in Hrt2.
  rewrite (Read_row _ _ _ _ _ (lookup_insert_eq _ _ _)), lookup_insert_eq.
  by rewrite (Hrt2 row2 Henc2).
Qed.

(** X8. After an [Insert] that returned no error, a [Scan] of the table from
    the inserted key with no filter and a count of at least one that the
    runtime allocates returns the inserted map first, the codec giving it
    back from its row. *)
Theorem insert_then_scan (s s' : Store) table key (m : FieldMap) count :
  codec_round_trip m →
  Insert s table key m = (s', None) →
  1 ≤ count ≤ max_slice_len →
  ∃ res err,
    Scan s' table key count [] = Returned (res, err) ∧
    res !! 0%nat = Some (Some m).
Proof.
  intros Hrt Hins Hc.
  apply db_Update_inv_ok, insert_tx_inv in Hins as (row & Henc & ->).
  rewrite (Scan_eq _ _ _ _ _ _ (lookup_insert_eq _ _ _)) by lia.
  destruct (cursor_Seek_head (<[key := row]> (default ∅ (s !! table))) key row)
    as [rest ->]; [apply lookup_insert_eq|].
  replace (Z.to_nat count) with (S (Z.to_nat (count - 1))) by lia.
  simpl. rewrite (Hrt row Henc).
  destruct (decode_rows [] (take (Z.to_nat (count - 1)) rest)) as [ms err].
  by eexists _, _.
Qed.

(** X9. On an existing table whose keys are all below the start key, and so
    on an empty table, [Scan] with a count that is not negative and that
    the runtime allocates returns its nil maps and no error: a start key
    beyond the last record is no error, unlike the missing key of
    [Read]. *)
Theorem scan_past_last_key (s : Store) table (bucket : Bucket) startKey count
    fields :
  s !! table = Some bucket →
  (∀ key, is_Some (bucket !! key) → key_lt key startKey) →
  0 ≤ count ≤ max_slice_len →
  Scan s table startKey count fields =
    Returned (replicate (Z.to_nat count) None, None).
Proof.
  intros Hb Hbelow Hc. rewrite (Scan_eq _ _ _ _ _ _ Hb Hc).
  assert (cursor_Seek bucket startKey = []) as ->.
  { destruct (cursor_Seek bucket startKey) as [|[k v] rest] eqn:Hcur; [done|].
    assert ((k, v) ∈ cursor_Seek bucket startKey) as Hin by (rewrite Hcur; left).
    apply cursor_Seek_elem in Hin as [Hle Hk].
    by destruct (key_lt_not_le k startKey (Hbelow k (mk_is_Some _ _ Hk))). }
  rewrite take_nil. simpl. by rewrite Nat.sub_0_r.
Qed.

(** X10. A [Scan] that returned no error and whose count is at least the
    number of records from the start key on skipped none of them: every
    record of the table with a key greater than or equal to the start key
    has its decoded map in the result. *)
Theorem scan_complete (s : Store) table (bucket : Bucket) startKey count fields
    res :
  s !! table = Some bucket →
  Scan s table startKey count fields = Returned (res, None) →
  Z.of_nat (length (cursor_Seek bucket startKey)) ≤ count →
  ∀ key row, bucket !! key = Some row → key_le startKey key →
    ∃ (i : nat) m, Decode row fields = Ok m ∧ res !! i = Some (Some m).
Proof.
  intros Hb Hscan Hlen key row Hk Hle.
  pose proof (Scan_returned_bounds _ _ _ _ _ _ Hscan) as Hc.
  rewrite (Scan_eq _ _ _ _ _ _ Hb Hc) in Hscan.
  rewrite take_ge in Hscan by lia.
  destruct (decode_rows fields (cursor_Seek bucket startKey)) as [ms err] eqn:Hd.
  injection Hscan as <- ->. apply decode_rows_ok in Hd.
  assert ((key, row) ∈ cursor_Seek bucket startKey) as Hin
    by (by apply cursor_Seek_elem).
  apply list_elem_of_lookup in Hin as [i Hi].
  destruct (Forall2_lookup_l _ _ _ _ _ Hd Hi) as (m & Hm & Hdec).
  exists i, m. split; [done|]. by apply scan_result_filled.
Qed.

(** X11. Every map a [Scan] that returned no error holds is what [Read]
    with the same filter returns for a key of the table that is greater
    than or equal to the start key. *)
Theorem scan_agrees_with_read (s : Store) table (bucket : Bucket) startKey count
    fields res :
  s !! table = Some bucket →
  Scan s table startKey count fields = Returned (res, None) →
  ∀ (i : nat) m, res !! i = Some (Some m) →
    ∃ key, key_le startKey key ∧ Read s table key fields = (Some m, None).
Proof.
  intros Hb Hscan i m Hi.
  pose proof (Scan_returned_bounds _ _ _ _ _ _ Hscan) as Hc.
  rewrite (Scan_eq _ _ _ _ _ _ Hb Hc) in Hscan.
  destruct (decode_rows fields (take (Z.to_nat count) (cursor_Seek bucket startKey)))
    as [ms err] eqn:Hd.
  injection Hscan as <- ->. apply decode_rows_ok in Hd.
  assert (ms !! i = Some m) as Hm.
  { destruct (decide (i < length ms)%nat) as [Hlt|Hge].
    - rewrite lookup_app_l, list_lookup_fmap in Hi by (rewrite length_fmap; lia).
      destruct (ms !! i); by simplify_eq/=.
    - rewrite lookup_app_r, length_fmap in Hi by (rewrite length_fmap; lia).
      by apply lookup_replicate_1 in Hi as [[=] _]. }
  destruct (Forall2_lookup_r _ _ _ _ _ Hd Hm) as ([key row] & Hrec & Hdec).
  apply list_elem_of_lookup_2 in Hrec.
  assert ((key, row) ∈ cursor_Seek bucket startKey) as Hin
    by (eapply elem_of_sublist; [done|apply sublist_take]).
  apply cursor_Seek_elem in Hin as [Hle Hk].
  exists key. split; [done|]. simpl in Hdec.
  by rewrite (Read_row _ _ _ _ _ Hb), Hk, Hdec.
Qed.

(** X12. The count of [Scan] only cuts the result: when a [Scan] returned no
    error, the [Scan] from the same key with a smaller count that is not
    negative returns no error either, and holds the same entries up to
    its count. *)
Theorem scan_count_prefix (s : Store) table (bucket : Bucket) startKey fields
    (n1 n2 : Z) res2 :
  s !! table = Some bucket →
  Scan s table startKey n2 fields = Returned (res2, None) →
  0 ≤ n1 ≤ n2 →
  ∃ res1,
    Scan s table startKey n1 fields = Returned (res1, None) ∧
    length res1 = Z.to_nat n1 ∧
    ∀ i : nat, (i < Z.to_nat n1)%nat → res1 !! i = res2 !! i.
Proof.
  intros Hb Hscan Hn.
  pose proof (Scan_returned_bounds _ _ _ _ _ _ Hscan) as Hc.
  rewrite (Scan_eq _ _ _ _ _ _ Hb Hc) in Hscan.
  rewrite (Scan_eq _ _ _ _ _ _ Hb) by lia.
  set (cursor := cursor_Seek bucket startKey) in *.
  destruct (decode_rows fields (take (Z.to_nat n2) cursor)) as [ms err] eqn:Hd.
  injection Hscan as <- ->.
  pose proof (decode_rows_take fields _ _ (Z.to_nat n1) Hd) as Hd1.
  rewrite take_take, Nat.min_l in Hd1 by lia. rewrite Hd1.
  pose proof (Forall2_length _ _ _ (decode_rows_ok _ _ _ Hd)) as Hlen.
  rewrite length_take in Hlen.
  eexists. split; [done|]. split.
  - apply (scan_result_length _ _ (Z.to_nat n1)); [|done].
    rewrite length_take. lia.
  - intros i Hi. destruct (decide (i < length ms)%nat) as [Hlt|Hge].
    + rewrite !lookup_app_l by (rewrite length_fmap, ?length_take; lia).
      rewrite !list_lookup_fmap. by rewrite lookup_take_lt.
    + rewrite take_ge by lia.
      rewrite !lookup_app_r by (rewrite length_fmap; lia).
      rewrite length_fmap, !lookup_replicate_2 by lia. done.
Qed.

(** X13. When [Read] of a key returns a map, a [Scan] from that key with
    the same filter and a count of at least one that the runtime allocates
    returns that map first: the start key is included. *)
Theorem read_then_scan_first (s : Store) table key fields (m : FieldMap) count :
  Read s table key fields = (Some m, None) →
  1 ≤ count ≤ max_slice_len →
  ∃ res err,
    Scan s table key count fields = Returned (res, err) ∧
    res !! 0%nat = Some (Some m).
Proof.
  intros Hread Hc. destruct (s !! table) as [bucket|] eqn:Hb.
  - rewrite (Read_row _ _ _ _ _ Hb) in Hread.
    destruct (bucket !! key) as [row|] eqn:Hk; [|done].
    destruct (Decode row fields) as [m'|e] eqn:Hd; [|done].
    injection Hread as ->.
    rewrite (Scan_eq _ _ _ _ _ _ Hb) by lia.
    destruct (cursor_Seek_head bucket key row Hk) as [rest ->].
    replace (Z.to_nat count) with (S (Z.to_nat (count - 1))) by lia.
    simpl. rewrite Hd.
    destruct (decode_rows fields (take (Z.to_nat (count - 1)) rest)) as [ms err].
    by eexists _, _.
  - unfold Read, db_View, read_tx, tx_Bucket in Hread. by rewrite Hb in Hread.
Qed.

(** X14. An error [Scan] returns on an existing table is never a missing
    key: it is the error the codec gives for the row of a record of the
    table with a key greater than or equal to the start key, the error
    [Read] of that key with the same filter returns. *)
Theorem scan_error_origin (s : Store) table (bucket : Bucket) startKey count
    fields res e :
  s !! table = Some bucket →
  Scan s table startKey count fields = Returned (res, Some e) →
  ∃ key row,
    bucket !! key = Some row ∧ key_le startKey key ∧
    Decode row fields = Err e ∧
    Read s table key fields = (None, Some e).
Proof.
  intros Hb Hscan.
  pose proof (Scan_returned_bounds _ _ _ _ _ _ Hscan) as Hc.
  rewrite (Scan_eq _ _ _ _ _ _ Hb Hc) in Hscan.
  destruct (decode_rows fields (take (Z.to_nat count) (cursor_Seek bucket startKey)))
    as [ms err] eqn:Hd.
  injection Hscan as <- ->.
  apply decode_rows_inv_err in Hd as (before & [key row] & rest & Hcur & _ & He).
  assert ((key, row) ∈ cursor_Seek bucket startKey) as Hin.
  { eapply elem_of_sublist; [|apply (sublist_take _ (Z.to_nat count))].
    rewrite Hcur. apply elem_of_app. right. left. }
  apply cursor_Seek_elem in Hin as [Hle Hk]. simpl in He.
  exists key, row. repeat split; try done.
  by rewrite (Read_row _ _ _ _ _ Hb), Hk, He.
Qed.

(** X15. An [Insert] of a map and then an [Update] of the same record, both
    without error, leave a record that decodes to the changes laid over
    the inserted map, the codec giving both maps back from their rows. *)
Theorem insert_then_update (s s1 s2 : Store) table key (m C : FieldMap) :
  codec_round_trip m →
  codec_round_trip (overlay C m) →
  Insert s table key m = (s1, None) →
  Update s1 table key C = (s2, None) →
  Read s2 table key [] = (Some (C ∪ m), None).
Proof.
  intros Hrt1 Hrt2 Hins Hup.
  apply db_Update_inv_ok, insert_tx_inv in Hins as (row & Henc & ->).
  apply db_Update_inv_ok, update_tx_inv in Hup
    as (bucket1 & row1 & data & row2 & Hb1 & Hk1 & Hd1 & Henc2 & ->).
  rewrite lookup_insert_eq in Hb1. injection Hb1 as <-.
  rewrite lookup_insert_eq in Hk1. injection Hk1 as <-.
  rewrite (Hrt1 row Henc) in Hd1. injection Hd1 as <-.
  rewrite (Read_row _ _ _ _ _ (lookup_insert_eq _ _ _)), lookup_insert_eq.
  by rewrite (Hrt2 row2 Henc2), overlay_union.
Qed.

(** X16. The maps in the slice [Scan] returns, with or without an error,
    have no nil map between them: when an entry holds a map, so does
    every entry before it. *)
Theorem scan_filled_prefix (s : Store) table startKey count fields res err :
  Scan s table startKey count fields = Returned (res, err) →
  ∀ (i j : nat) m, res !! i = Some (Some m) → (j < i)%nat →
    ∃ m', res !! j = Some (Some m').
Proof.
  intros Hscan i j m Hi Hj.
  pose proof (Scan_returned_bounds _ _ _ _ _ _ Hscan) as Hc.
  destruct (s !! table) as [bucket|] eqn:Hb.
  - rewrite (Scan_eq _ _ _ _ _ _ Hb Hc) in Hscan.
    destruct (decode_rows fields
                (take (Z.to_nat count) (cursor_Seek bucket startKey)))
      as [ms err'].
    injection Hscan as <- _.
    destruct (decide (i < length ms)%nat) as [Hlt|Hge].
    + destruct (lookup_lt_is_Some_2 ms j) as [m' Hm']; [lia|].
      exists m'. by apply scan_result_filled.
    + rewrite lookup_app_r, length_fmap in Hi by (rewrite length_fmap; lia).
      by apply lookup_replicate_1 in Hi as [[=] _].
  - unfold Scan, db_View, scan_tx, tx_Bucket in Hscan.
    rewrite make_slice_in_range, Hb in Hscan by done.
    injection Hscan as <- _.
    by apply lookup_replicate_1 in Hi as [[=] _].
Qed.

End Compositions.

(** * The compositions on the stores of the tests *)

Lemma delete_then_read_witness :
  @Read ref_codec (@Delete no_faults (store_of "tbl" "k1" vals_v) "tbl" "k1").1
    "tbl" "k1" [] = (None, Some (KeyNotFound "tbl" "k1")).
Proof.
  destruct (@delete_then_read ref_codec no_faults (store_of "tbl" "k1" vals_v)
              (@Delete no_faults (store_of "tbl" "k1" vals_v) "tbl" "k1").1
              "tbl" "k1" (default ∅ (store_of "tbl" "k1" vals_v !! "tbl")))
    as (Hread & _); [by vm_compute..|].
  apply Hread.
Defined.

Lemma write_leaves_other_records_witness :
  @Read ref_codec
    (@Insert ref_codec no_faults store_scan "tbl" "keyB" vals_v).1 "tbl" "keyA" []
  = @Read ref_codec store_scan "tbl" "keyA" [].
Proof.
  destruct (@write_leaves_other_records amd64 ref_codec no_faults store_scan
              (@Insert ref_codec no_faults store_scan "tbl" "keyB" vals_v).1
              "tbl" "keyB" None "tbl" "keyA") as (Hread & _).
  - right. left. exists vals_v. by vm_compute.
  - right. split; [done|]. eexists. by vm_compute.
  - apply Hread.
Defined.

Lemma insert_then_delete_witness :
  (* a fresh key of an existing table: the store is as before *)
  (@Delete no_faults
     (@Insert ref_codec no_faults (store_of "tbl" "k1" vals_v) "tbl" "k2" vals_v).1
     "tbl" "k2").1 = store_of "tbl" "k1" vals_v ∧
  (* a table that did not exist: it stays, empty *)
  @Scan amd64 ref_codec
    (@Delete no_faults (@Insert ref_codec no_faults ∅ "tbl" "k1" vals_v).1
       "tbl" "k1").1 "tbl" "" 2 [] = Returned (replicate (Z.to_nat 2) None, None).
Proof.
  split.
  - destruct (@insert_then_delete amd64 ref_codec no_faults (store_of "tbl" "k1" vals_v)
                (@Insert ref_codec no_faults (store_of "tbl" "k1" vals_v)
                   "tbl" "k2" vals_v).1
                (@Delete no_faults
                   (@Insert ref_codec no_faults (store_of "tbl" "k1" vals_v)
                      "tbl" "k2" vals_v).1 "tbl" "k2").1
                "tbl" "k2" vals_v) as (Hsame & _); [by vm_compute..|].
    eapply Hsame; by vm_compute.
  - destruct (@insert_then_delete amd64 ref_codec no_faults ∅
                (@Insert ref_codec no_faults ∅ "tbl" "k1" vals_v).1
                (@Delete no_faults
                   (@Insert ref_codec no_faults ∅ "tbl" "k1" vals_v).1
                   "tbl" "k1").1
                "tbl" "k1" vals_v) as (_ & Hnew); [by vm_compute..|].
    destruct Hnew as (_ & _ & Hscan); [by vm_compute|].
    apply Hscan. split; by vm_compute.
Defined.

Lemma insert_adds_one_key_witness :
  table_keys (@Insert ref_codec no_faults store_scan "tbl" "keyD" vals_v).1 "tbl"
  = {["keyD"]} ∪ table_keys store_scan "tbl" ∧
  dom (@Insert ref_codec no_faults store_scan "tbl" "keyD" vals_v).1
  = {["tbl"]} ∪ dom store_scan.
Proof.
  apply (@insert_adds_one_key ref_codec no_faults store_scan _ "tbl" "keyD" vals_v).
  by vm_compute.
Defined.

Lemma delete_removes_one_key_witness :
  table_keys (@Delete no_faults store_scan "tbl" "keyB").1 "tbl"
  = table_keys store_scan "tbl" ∖ {["keyB"]} ∧
  dom (@Delete no_faults store_scan "tbl" "keyB").1 = dom store_scan.
Proof.
  apply (@delete_removes_one_key no_faults store_scan _ "tbl" "keyB").
  by vm_compute.
Defined.

Lemma update_keeps_keys_witness :
  "k1" ∈ table_keys (store_of "tbl" "k1" vals_v_v2) "tbl" ∧
  table_keys
    (@Update ref_codec no_faults (store_of "tbl" "k1" vals_v_v2)
       "tbl" "k1" vals_updated).1 "tbl"
  = table_keys (store_of "tbl" "k1" vals_v_v2) "tbl" ∧
  dom (@Update ref_codec no_faults (store_of "tbl" "k1" vals_v_v2)
         "tbl" "k1" vals_updated).1
  = dom (store_of "tbl" "k1" vals_v_v2).
Proof.
  apply (@update_keeps_keys ref_codec no_faults (store_of "tbl" "k1" vals_v_v2)
           _ "tbl" "k1" vals_updated).
  by vm_compute.
Defined.

Lemma update_twice_witness :
  @Read ref_codec
    (@Update ref_codec no_faults
       (@Update ref_codec no_faults (store_of "tbl" "k1" vals_v_v2)
          "tbl" "k1" vals_updated).1 "tbl" "k1" vals_w).1 "tbl" "k1" []
  = (Some ((vals_w ∪ vals_updated) ∪ vals_v_v2), None).
Proof.
  eapply (@update_twice ref_codec no_faults (store_of "tbl" "k1" vals_v_v2)
            _ _ "tbl" "k1").
  - by vm_compute.
  - by vm_compute.
  - by vm_compute.
  - intros row Henc. vm_compute in Henc. injection Henc as <-. by vm_compute.
  - intros row Henc. vm_compute in Henc. injection Henc as <-. by vm_compute.
  - by vm_compute.
  - by vm_compute.
Defined.

Lemma insert_then_scan_witness :
  ∃ res err,
    @Scan amd64 ref_codec (@Insert ref_codec no_faults store_scan "tbl" "keyB" vals_v).1
      "tbl" "keyB" 2 [] = Returned (res, err) ∧
    res !! 0%nat = Some (Some vals_v).
Proof.
  apply (@insert_then_scan amd64 ref_codec no_faults store_scan _ "tbl" "keyB" vals_v 2).
  - intros row Henc. vm_compute in Henc. injection Henc as <-. by vm_compute.
  - by vm_compute.
  - split; by vm_compute.
Defined.

Lemma scan_past_last_key_witness :
  @Scan amd64 ref_codec store_scan "tbl" "keyD" 2 []
  = Returned (replicate (Z.to_nat 2) None, None).
Proof.
  apply (@scan_past_last_key amd64 ref_codec store_scan "tbl" bucket_scan "keyD" 2 []).
  - by vm_compute.
  - intros key [value Hk]. apply bucket_entries_elem in Hk.
    vm_compute in Hk.
    repeat (apply elem_of_cons in Hk as [[= -> _]|Hk]; [by vm_compute|]).
    by apply not_elem_of_nil in Hk.
  - split; by vm_compute.
Defined.

Lemma scan_complete_witness :
  ∃ (i : nat) m,
    @Decode ref_codec
      (default [] (bucket_scan !! "keyC")) [] = Ok m ∧
    [Some rec_B; Some rec_C; None; None; None] !! i = Some (Some m).
Proof.
  eapply (@scan_complete amd64 ref_codec store_scan "tbl" bucket_scan "keyB" 5 []
            [Some rec_B; Some rec_C; None; None; None]) with (key := "keyC");
    by vm_compute.
Defined.

Lemma scan_agrees_with_read_witness :
  ∃ key, key_le "keyA" key ∧
         @Read ref_codec store_scan "tbl" key [] = (Some rec_B, None).
Proof.
  eapply (@scan_agrees_with_read amd64 ref_codec store_scan "tbl" bucket_scan "keyA" 3 []
            [Some rec_A; Some rec_B; Some rec_C]) with (i := 1%nat);
    by vm_compute.
Defined.

Lemma scan_count_prefix_witness :
  ∃ res1,
    @Scan amd64 ref_codec store_scan "tbl" "keyA" 1 [] = Returned (res1, None) ∧
    length res1 = Z.to_nat 1 ∧
    ∀ i : nat, (i < Z.to_nat 1)%nat →
               res1 !! i = [Some rec_A; Some rec_B; Some rec_C] !! i.
Proof.
  apply (@scan_count_prefix amd64 ref_codec store_scan "tbl" bucket_scan "keyA" [] 1 3
           [Some rec_A; Some rec_B; Some rec_C]); [by vm_compute..|lia].
Defined.

Lemma read_then_scan_first_witness :
  ∃ res err,
    @Scan amd64 ref_codec store_scan "tbl" "keyB" 2 ["field0"] = Returned (res, err) ∧
    res !! 0%nat = Some (Some rec_B).
Proof.
  apply (@read_then_scan_first amd64 ref_codec store_scan "tbl" "keyB" ["field0"] rec_B 2).
  - by vm_compute.
  - split; by vm_compute.
Defined.

Lemma scan_error_origin_witness :
  ∃ key row,
    bucket_corrupt !! key = Some row ∧ key_le "keyA" key ∧
    @Decode ref_codec row [] = Err "corrupt row" ∧
    @Read ref_codec store_corrupt "tbl" key [] = (None, Some "corrupt row").
Proof.
  apply (@scan_error_origin amd64 ref_codec store_corrupt "tbl" bucket_corrupt "keyA" 3 []
           [Some rec_A; None; None] "corrupt row"); by vm_compute.
Defined.

Lemma insert_then_update_witness :
  @Read ref_codec
    (@Update ref_codec no_faults
       (@Insert ref_codec no_faults ∅ "tbl" "k1" vals_v_v2).1
       "tbl" "k1" vals_updated).1 "tbl" "k1" []
  = (Some (vals_updated ∪ vals_v_v2), None).
Proof.
  eapply (@insert_then_update ref_codec no_faults ∅ _ _ "tbl" "k1").
  - intros row Henc. vm_compute in Henc. injection Henc as <-. by vm_compute.
  - intros row Henc. vm_compute in Henc. injection Henc as <-. by vm_compute.
  - by vm_compute.
  - by vm_compute.
Defined.

Lemma scan_filled_prefix_witness :
  ∃ m', [Some rec_A; Some rec_B; Some rec_C; None] !! 1%nat = Some (Some m').
Proof.
  eapply (@scan_filled_prefix amd64 ref_codec store_scan "tbl" "" 4 ["field0"]
            [Some rec_A; Some rec_B; Some rec_C; None])
    with (i := 2%nat) (m := rec_C).
  - by vm_compute.
  - by vm_compute.
  - lia.
Defined.
